(** * Rocket.Chat.js.SDK driver: a shallow embedding of [src/lib/driver.ts]

    The driver is a TypeScript module with process-wide mutable state
    (the Asteroid instance, the array of subscriptions, the reactive
    message collection, the method cache) and asynchronous operations
    returning promises.  The embedding threads the module state through
    a small state monad, records every interaction with an external
    collaborator (transport, logger, callbacks) in a chronological trace
    and represents a promise by its eventual settlement. *)

From Stdlib Require Import ZArith.
From Stdlib Require DecimalString.
From stdpp Require Import base strings list gmap.

Open Scope string_scope.
Open Scope list_scope.
Open Scope nat_scope.

(** ** JavaScript values *)

(** Plain message data ([IMessage]): the fields the driver reads. *)
Record IMessage := mkIMessage { rid : option string; msg : option string }.

(** What [new Message(content)] accepts. *)
Inductive MessageContent :=
| TextContent (text : string)
| ObjectContent (m : IMessage).

(** Modelled from the spec: the [Message] class of [./message] is an
    external collaborator (message construction is out of scope there),
    so an instance is represented by its history: the constructor call
    followed by the [setRoomId] calls made on it. *)
Inductive Message :=
| new_Message (content : MessageContent)
| setRoomId (roomId : string) (message : Message).

#[local] Set Warnings "-register-all".
Inductive JsVal :=
| JUndefined
| JNull
| JBool (b : bool)
| JNum (n : Z)
| JStr (s : string)
| JArr (items : list JsVal)
| JObj (fields : list (string * JsVal))
| JData (m : IMessage)
| JMessage (m : Message).

Record Error := mkError { message : string }.

(** JavaScript truthiness, as used by [if (x)] and [x ? a : b]. *)
Definition truthy (v : JsVal) : bool :=
  match v with
  | JUndefined | JNull => false
  | JBool b => b
  | JNum n => negb (n =? 0)%Z
  | JStr s => negb (String.eqb s "")
  | JArr _ | JObj _ | JData _ | JMessage _ => true
  end.

Definition isArray (v : JsVal) : bool :=
  match v with JArr _ => true | _ => false end.

(** [undefined] and [null], the two values whose properties cannot be
    read. *)
Definition nullish (v : JsVal) : bool :=
  match v with JUndefined | JNull => true | _ => false end.

(** The own property [name] of an object literal; of two fields with the
    same name the later one counts. *)
Fixpoint own_property (name : string) (fields : list (string * JsVal)) : option JsVal :=
  match fields with
  | [] => None
  | (k, v) :: rest =>
      match own_property name rest with
      | Some later => Some later
      | None => if String.eqb k name then Some v else None
      end
  end.

(** What reading a property of [undefined] or [null] throws. *)
Definition typeError : Error := mkError "TypeError".

(** The property name of an array index. *)
Definition index_name (i : nat) : string :=
  DecimalString.NilZero.string_of_uint (Nat.to_uint i).

(** [v[i]] for a [v] that is neither [undefined] nor [null]: the element
    of an array, the character of a string, the property named by the
    index of an object literal; numbers, booleans and message objects,
    which hold named properties only, give [undefined]. *)
Definition element (v : JsVal) (i : nat) : JsVal :=
  match v with
  | JArr items => default JUndefined (items !! i)
  | JStr s =>
      match String.get i s with
      | Some c => JStr (String c "")
      | None => JUndefined
      end
  | JObj fields => default JUndefined (own_property (index_name i) fields)
  | _ => JUndefined
  end.

(** [v[i]], which throws on [undefined] and [null]. *)
Definition at_index (v : JsVal) (i : nat) : JsVal + Error :=
  if nullish v then inr typeError else inl (element v i).

Definition IMessage_eqb (a b : IMessage) : bool :=
  bool_decide (rid a = rid b) && bool_decide (msg a = msg b).

Definition MessageContent_eqb (a b : MessageContent) : bool :=
  match a, b with
  | TextContent s, TextContent t => String.eqb s t
  | ObjectContent m, ObjectContent n => IMessage_eqb m n
  | _, _ => false
  end.

Fixpoint Message_eqb (a b : Message) : bool :=
  match a, b with
  | new_Message c, new_Message c' => MessageContent_eqb c c'
  | setRoomId r m, setRoomId r' m' => String.eqb r r' && Message_eqb m m'
  | _, _ => false
  end.

(** Key comparison of the cache.  Keys are strings by contract; other
    values are compared structurally. *)
Fixpoint JsVal_eqb (a b : JsVal) : bool :=
  match a, b with
  | JUndefined, JUndefined => true
  | JNull, JNull => true
  | JBool x, JBool y => Bool.eqb x y
  | JNum x, JNum y => (x =? y)%Z
  | JStr x, JStr y => String.eqb x y
  | JArr xs, JArr ys =>
      (fix go (xs ys : list JsVal) : bool :=
         match xs, ys with
         | [], [] => true
         | x :: xs', y :: ys' => JsVal_eqb x y && go xs' ys'
         | _, _ => false
         end) xs ys
  | JObj xs, JObj ys =>
      (fix go (xs ys : list (string * JsVal)) : bool :=
         match xs, ys with
         | [], [] => true
         | (k, x) :: xs', (k', y) :: ys' =>
             String.eqb k k' && JsVal_eqb x y && go xs' ys'
         | _, _ => false
         end) xs ys
  | JData x, JData y => IMessage_eqb x y
  | JMessage x, JMessage y => Message_eqb x y
  | _, _ => false
  end.

(** ** Promises *)

(** A promise is represented by how it eventually settles. *)
Inductive Settlement (A : Type) :=
| Pending
| Fulfilled (v : A)
| Rejected (e : Error).
Arguments Pending {A}.
Arguments Fulfilled {A} v.
Arguments Rejected {A} e.

(** ** External collaborators *)

(** A transport subscription object; [id] doubles as object identity. *)
Record ISubscription := mkSubscription {
  id : nat;
  topic : string;
  streamKey : string
}.

#[global] Instance ISubscription_eq_dec : EqDecision ISubscription.
Proof. solve_decision. Defined.

(** A record of the reactive collection.  The driver reads its [args]
    only, which is whatever the server put there: by contract an array
    [[message, extra]] or [null], but nothing in the driver checks it,
    and a record without the property has [undefined]. *)
Record ChangedMessage := mkChanged {
  _id : string;
  args : JsVal
}.

(** Modelled from the spec: the reactive collection handle; the result
    of [reactiveQuery({ _id })] may be missing or a list of records. *)
Record ICollection := mkCollection {
  name : string;
  reactiveQuery : string -> option (list ChangedMessage)
}.

(** The Asteroid instance.  The server's answers are functions of the
    instance: [result n] settles the promise of the [n]-th remote
    invocation, [ready s] the readiness promise of subscription [s]. *)
Record IAsteroid := mkAsteroid {
  endpoint : string;
  ssl : bool;
  result : nat -> Settlement JsVal;
  ready : ISubscription -> Settlement nat;
  logoutResult : Settlement unit;
  getCollection : string -> ICollection
}.

Inductive LogEntry :=
| LogInfo (text : string) (detail : option JsVal)
| LogDebug (text : string) (detail : option JsVal)
| LogError (text : string) (err : Error).

Inductive LifecycleEvent := connected | reconnected.

#[global] Instance LifecycleEvent_eq_dec : EqDecision LifecycleEvent.
Proof. solve_decision. Defined.

(** Everything the driver does to the outside world. *)
Inductive Effect :=
| ELog (entry : LogEntry)
| EConsole (text : string) (message : JsVal)   (* console.log(text + message.rid) *)
| EApply (method : string) (params : JsVal)      (* asteroid.apply *)
| ERemoteCall (method : string) (key : JsVal)    (* the cache's remote call *)
| ESubscribe (topic key : string)                (* asteroid.subscribe *)
| EStop (s : ISubscription)                      (* subscription.stop() *)
| ELogout                                        (* asteroid.logout() *)
| EEmit (ev : LifecycleEvent)                    (* events.emit *)
| EConnectCallback (err : option Error)          (* callback(err, asteroid) *)
| ECallback (err : option Error) (a b : option JsVal).

(** ** Method cache data *)

(** Modelled from the spec: CacheEntry.  [promise] is the handle of the
    stored promise (the index of the remote invocation that made it). *)
Record CacheEntry := mkEntry {
  key : JsVal;
  promise : nat;
  insertedAt : Z
}.

(** Modelled from the spec: MethodCacheBucket; [entries] is ordered by
    recency, most recently used first. *)
Record MethodCacheBucket := mkBucket {
  capacity : Z;
  maxAgeMs : Z;
  entries : list CacheEntry
}.

(** ** Module state *)

(** The module-level variables of the driver and of the method cache,
    the clock read by the cache, and the trace of effects so far. *)
Record Driver := mkDriver {
  asteroid : IAsteroid;
  subscriptions : list ISubscription;
  messages : option ICollection;
  buckets : gmap string MethodCacheBucket;
  now : Z;
  trace : list Effect
}.

(** State-passing computations over the module state. *)
Definition Eff (A : Type) : Type := Driver -> Driver * A.

Definition ret {A} (a : A) : Eff A := fun d => (d, a).

Definition bind {A B} (m : Eff A) (k : A -> Eff B) : Eff B :=
  fun d => let '(d', a) := m d in k a d'.

Declare Scope eff_scope.
Delimit Scope eff_scope with eff.
Notation "x ← y ; z" := (bind y (fun x => z))
  (at level 20, y at level 100, z at level 200, only parsing) : eff_scope.
Notation "x ;; z" := (bind x (fun _ => z))
  (at level 100, z at level 200, only parsing, right associativity) : eff_scope.
Open Scope eff_scope.

Definition exec {A} (m : Eff A) (d : Driver) : Driver := fst (m d).
Definition eval {A} (m : Eff A) (d : Driver) : A := snd (m d).

Definition perform (e : Effect) : Eff unit := fun d =>
  (mkDriver (asteroid d) (subscriptions d) (messages d) (buckets d) (now d)
            (trace d ++ [e]), tt).

Definition set_subscriptions (l : list ISubscription) : Eff unit := fun d =>
  (mkDriver (asteroid d) l (messages d) (buckets d) (now d) (trace d), tt).

Definition set_messages (c : ICollection) : Eff unit := fun d =>
  (mkDriver (asteroid d) (subscriptions d) (Some c) (buckets d) (now d)
            (trace d), tt).

Definition set_buckets (b : gmap string MethodCacheBucket) : Eff unit :=
  fun d =>
  (mkDriver (asteroid d) (subscriptions d) (messages d) b (now d) (trace d), tt).

Definition set_asteroid (a : IAsteroid) : Eff unit := fun d =>
  (mkDriver a (subscriptions d) (messages d) (buckets d) (now d) (trace d), tt).

(** The environment lets [dt] milliseconds pass. *)
Definition advance (dt : Z) : Eff unit := fun d =>
  (mkDriver (asteroid d) (subscriptions d) (messages d) (buckets d)
            (now d + dt)%Z (trace d), tt).

Definition gets {A} (f : Driver -> A) : Eff A := fun d => (d, f d).

Module logger.
Definition info (text : string) (detail : option JsVal) : Eff unit :=
  perform (ELog (LogInfo text detail)).
Definition debug (text : string) (detail : option JsVal) : Eff unit :=
  perform (ELog (LogDebug text detail)).
Definition error (text : string) (err : Error) : Eff unit :=
  perform (ELog (LogError text err)).
End logger.

(** A handler passed to [.then] or [.catch]: it returns or throws. *)
Definition Handler (A B : Type) : Type := A -> Eff (B + Error).

Definition settle {B} (r : B + Error) : Settlement B :=
  match r with inl v => Fulfilled v | inr e => Rejected e end.

(** [p.catch(h)] *)
Definition promise_catch {A} (p : Settlement A) (h : Handler Error A)
  : Eff (Settlement A) :=
  match p with
  | Rejected e => r ← h e; ret (settle r)
  | _ => ret p
  end.

(** [p.then(h)] *)
Definition promise_then {A B} (p : Settlement A) (h : Handler A B)
  : Eff (Settlement B) :=
  match p with
  | Fulfilled v => r ← h v; ret (settle r)
  | Rejected e => ret (Rejected e)
  | Pending => ret Pending
  end.

(** [Promise.all(ps)]; of several rejections the first in list order is
    reported. *)
Fixpoint promise_all {A} (ps : list (Settlement A)) : Settlement (list A) :=
  match ps with
  | [] => Fulfilled []
  | p :: rest =>
      match p, promise_all rest with
      | Rejected e, _ => Rejected e
      | Pending, Rejected e => Rejected e
      | Pending, _ => Pending
      | Fulfilled v, Fulfilled vs => Fulfilled (v :: vs)
      | Fulfilled _, Rejected e => Rejected e
      | Fulfilled _, Pending => Pending
      end
  end.

(** ** The method cache ([./methodCache]) *)

Module methodCache.

(** Number of remote invocations made so far; the next one gets this
    number as the handle of its result promise. *)
Definition is_invocation (e : Effect) : bool :=
  match e with EApply _ _ | ERemoteCall _ _ => true | _ => false end.

Definition invocations (t : list Effect) : nat :=
  length (List.filter is_invocation t).

Definition find_entry (k : JsVal) (es : list CacheEntry) : option CacheEntry :=
  List.find (fun e => JsVal_eqb (key e) k) es.

Definition remove_key (k : JsVal) (es : list CacheEntry) : list CacheEntry :=
  List.filter (fun e => negb (JsVal_eqb (key e) k)) es.

(** Modelled from the spec: an entry older than [maxAgeMs] is treated as
    absent. *)
Definition expired (b : MethodCacheBucket) (t : Z) (e : CacheEntry) : bool :=
  (maxAgeMs b <? t - insertedAt e)%Z.

Definition set_entries (methodName : string) (b : MethodCacheBucket)
    (es : list CacheEntry) : Eff unit :=
  bs ← gets buckets;
  set_buckets (<[methodName := mkBucket (capacity b) (maxAgeMs b) es]> bs).

(** Modelled from the spec: the cache issues its remote calls on the
    instance it was given; the model keeps that instance in the driver
    state, so [use] has nothing to store. *)
Definition use (a : IAsteroid) : Eff unit := ret tt.

(** Modelled from the spec: [create] registers a bucket; registering a
    name again replaces its policy and clears its entries. *)
Definition create (methodName : string) (max maxAge : Z) : Eff unit :=
  bs ← gets buckets;
  set_buckets (<[methodName := mkBucket max maxAge []]> bs).

(** Modelled from the spec: [has] is true iff a bucket is registered. *)
Definition has (methodName : string) : Eff bool :=
  bs ← gets buckets;
  ret (bool_decide (is_Some (bs !! methodName))).

(** Modelled from the spec: [get] returns the entry if present and not
    expired, and promotes it to most recently used. *)
Definition get (methodName : string) (k : JsVal) : Eff (option CacheEntry) :=
  bs ← gets buckets;
  t ← gets now;
  match bs !! methodName with
  | None => ret None
  | Some b =>
      match find_entry k (entries b) with
      | None => ret None
      | Some e =>
          if expired b t e then ret None
          else set_entries methodName b (e :: remove_key k (entries b));;
               ret (Some e)
      end
  end.

(** Modelled from the spec: [put] inserts or overwrites the entry with
    the current timestamp and, if the bucket then exceeds its capacity,
    evicts the least recently used entry.  Without a bucket for the
    method there is nowhere to store. *)
Definition put (methodName : string) (k : JsVal) (p : nat) : Eff unit :=
  bs ← gets buckets;
  t ← gets now;
  match bs !! methodName with
  | None => ret tt
  | Some b =>
      let es := mkEntry k p t :: remove_key k (entries b) in
      set_entries methodName b
        (if (capacity b <? Z.of_nat (length es))%Z then removelast es else es)
  end.

(** The remote call of the cache; returns the handle of its promise. *)
Definition remote (methodName : string) (k : JsVal) : Eff nat :=
  n ← gets (fun d => invocations (trace d));
  perform (ERemoteCall methodName k);;
  ret n.

(** Modelled from the spec: [call] returns the cached promise on a hit;
    on a miss it invokes the remote method with the key as its single
    argument, stores the pending promise itself and returns it. *)
Definition call (methodName : string) (k : JsVal) : Eff nat :=
  hit ← get methodName k;
  match hit with
  | Some e => ret (promise e)
  | None =>
      p ← remote methodName k;
      put methodName k p;;
      ret p
  end.

End methodCache.

Arguments methodCache.invocations : simpl never.

(** ** The driver ([src/lib/driver.ts]) *)

(** The process environment; a numeric variable is either unset or
    empty ([None]) or holds a number, given as [parseInt] reads it. *)
Record Env := mkEnv {
  ROCKETCHAT_URL : option string;
  ROOM_CACHE_SIZE : option Z;
  ROOM_CACHE_MAX_AGE : option Z;
  DM_ROOM_CACHE_SIZE : option Z;
  DM_ROOM_CACHE_MAX_AGE : option Z
}.

Definition setupMethodCache (env : Env) (a : IAsteroid) : Eff unit :=
  methodCache.use a;;
  methodCache.create "getRoomIdByNameOrId"
    (default 10%Z (ROOM_CACHE_SIZE env))
    (1000 * default 300 (ROOM_CACHE_MAX_AGE env))%Z;;
  methodCache.create "getRoomNameById"
    (default 10%Z (ROOM_CACHE_SIZE env))
    (1000 * default 300 (ROOM_CACHE_MAX_AGE env))%Z;;
  methodCache.create "createDirectMessage"
    (default 10%Z (DM_ROOM_CACHE_SIZE env))
    (1000 * default 100 (DM_ROOM_CACHE_MAX_AGE env))%Z.

(** [asteroid.apply(method, params).result] *)
Definition asteroid_apply (method : string) (params : JsVal)
  : Eff (Settlement JsVal) :=
  n ← gets (fun d => methodCache.invocations (trace d));
  perform (EApply method params);;
  a ← gets asteroid;
  ret (result a n).

(** The handlers shared by [asyncCall] and [cacheCall]. *)
Definition log_and_rethrow (method : string) : Handler Error JsVal :=
  fun err =>
    logger.error ("[" ++ method ++ "] Error:") err;;
    ret (inr err).

Definition log_success (method : string) : Handler JsVal JsVal :=
  fun res =>
    (if truthy res
     then logger.debug ("[" ++ method ++ "] Success: ") (Some res)
     else logger.debug ("[" ++ method ++ "] Success") None);;
    ret (inl res).

Definition asyncCall (method : string) (params : JsVal)
  : Eff (Settlement JsVal) :=
  let params := if isArray params then params else JArr [params] in
  logger.info ("[" ++ method ++ "] Calling (async): ") (Some params);;
  p ← asteroid_apply method params;
  p ← promise_catch p (log_and_rethrow method);
  promise_then p (log_success method).

Definition cacheCall (method : string) (k : JsVal) : Eff (Settlement JsVal) :=
  h ← methodCache.call method k;
  a ← gets asteroid;
  p ← promise_catch (result a h) (log_and_rethrow method);
  promise_then p (log_success method).

Definition callMethod (name : string) (params : JsVal)
  : Eff (Settlement JsVal) :=
  cached ← methodCache.has name;
  if cached then asyncCall name params else cacheCall name params.

(** *** Login state and subscriptions *)

Definition logout : Eff (Settlement unit) :=
  perform ELogout;;
  a ← gets asteroid;
  promise_catch (logoutResult a)
    (fun err => logger.error "[Logout] Error:" err;; ret (inr err)).

(** [asteroid.subscribe(topic, roomId, true)]: a new subscription object. *)
Definition is_subscribe (e : Effect) : bool :=
  match e with ESubscribe _ _ => true | _ => false end.

Definition asteroid_subscribe (topic roomId : string) : Eff ISubscription :=
  n ← gets (fun d => length (List.filter is_subscribe (trace d)));
  perform (ESubscribe topic roomId);;
  ret (mkSubscription n topic roomId).

(** [subscriptions.push(subscription)] *)
Definition push (subscription : ISubscription) : Eff unit :=
  subs ← gets subscriptions;
  set_subscriptions (subs ++ [subscription]).

(** The executor of the returned promise calls [resolve] from the
    readiness handler only and [reject] nowhere; the promise it returns
    is discarded by the [Promise] constructor. *)
Definition subscribe (topic roomId : string) : Eff (Settlement ISubscription) :=
  logger.info ("[subscribe] Preparing subscription: " ++ topic ++ ": " ++ roomId)
              None;;
  subscription ← asteroid_subscribe topic roomId;
  push subscription;;
  a ← gets asteroid;
  resolved ← promise_then (ready a subscription)
    (fun i =>
       logger.info "[subscribe] Stream ready: " (Some (JNum (Z.of_nat i)));;
       ret (inl subscription));
  ret (match resolved with
       | Fulfilled s => Fulfilled s
       | _ => Pending
       end).

(** [subscriptions.indexOf(subscription)], [None] standing for [-1]. *)
Definition indexOf (subscription : ISubscription) (l : list ISubscription)
  : option nat :=
  fst <$> list_find (fun s => s = subscription) l.

Definition unsubscribe (subscription : ISubscription) : Eff unit :=
  subs ← gets subscriptions;
  match indexOf subscription subs with
  | None => ret tt
  | Some index =>
      perform (EStop subscription);;
      set_subscriptions (delete index subs);;   (* splice(index, 1) *)
      logger.info "Unsubscribed" (Some (JNum (Z.of_nat (id subscription))))
  end.

(** [Array.prototype.map] over the live [subscriptions] array: the length
    is read once, then each index [k] below it is visited in turn, the
    callback being applied to the element found at [k] at that moment
    and skipped when the array has become too short. *)
Fixpoint map_from (f : ISubscription -> Eff unit) (k steps : nat) : Eff unit :=
  match steps with
  | O => ret tt
  | S steps' =>
      subs ← gets subscriptions;
      match subs !! k with
      | Some s => f s
      | None => ret tt
      end;;
      map_from f (S k) steps'
  end.

Definition unsubscribeAll : Eff unit :=
  subs ← gets subscriptions;
  map_from unsubscribe 0 (length subs).

Definition disconnect : Eff (Settlement unit) :=
  logger.info "Unsubscribing, logging out, disconnecting" None;;
  unsubscribeAll;;
  p ← logout;
  promise_then p (fun _ => ret (inl tt)).

(** *** Reactive messages *)

Definition _messageCollectionName : string := "stream-room-messages".
Definition _messageStreamName : string := "__my_messages__".

Definition subscribeToMessages : Eff (Settlement ISubscription) :=
  p ← subscribe _messageCollectionName _messageStreamName;
  promise_then p
    (fun subscription =>
       a ← gets asteroid;
       set_messages (getCollection a _messageCollectionName);;
       ret (inl subscription)).

(** How a listener invocation completes. *)
Inductive Completion := Normal | Throw (e : Error).

(** The ['change'] listener registered by [reactToMessages(callback)];
    invocations of [callback] are recorded as [ECallback].  Only [null]
    is taken for missing arguments; on anything else [args[0].rid] is
    read for the console, which throws when [args] is [undefined] or
    when its first element is [undefined] or [null]. *)
Definition onChange (messages : ICollection) (_id : string) : Eff Completion :=
  let changedMessageQuery := reactiveQuery messages _id in
  match changedMessageQuery with
  | Some (changedMessage :: _) =>
      if negb (JsVal_eqb (args changedMessage) JNull) then
        match at_index (args changedMessage) 0 with
        | inr e => ret (Throw e)
        | inl args0 =>
            if nullish args0 then ret (Throw typeError)
            else
              perform (EConsole "[received] Message in room " args0);;
              perform (ECallback None (Some args0)
                                 (Some (element (args changedMessage) 1)));;
              ret Normal
        end
      else
        perform (ECallback (Some (mkError "Received message without args"))
                           None None);;
        ret Normal
  | _ =>
      perform (ECallback
                 (Some (mkError ("[change] Reactive query at ID " ++ _id
                                 ++ " without results")))
                 None None);;
      ret Normal
  end.

(** [reactToMessages] reads [messages.name], which throws while
    [messages] is unset, and returns the listener it registers. *)
Definition reactToMessages : Eff (option (string -> Eff Completion)) :=
  m ← gets messages;
  match m with
  | None => ret None
  | Some messages =>
      logger.info ("[reactive] Listening for change events in collection "
                   ++ name messages) None;;
      ret (Some (onChange messages))
  end.

(** *** Preparing and sending messages *)

Definition getRoomId (name : string) : Eff (Settlement JsVal) :=
  cacheCall "getRoomIdByNameOrId" (JStr name).

Definition prepareMessage (content : MessageContent) (roomId : option string)
  : Message :=
  let message := new_Message content in
  match roomId with
  | Some r => if truthy (JStr r) then setRoomId r message else message
  | None => message                     (* [undefined] is falsy *)
  end.

(** [string | string[] | IMessage] *)
Inductive Content :=
| Single (content : MessageContent)
| Many (texts : list string).

(** The messages [sendMessageByRoomId] prepares before sending. *)
Definition prepareMessages (content : Content) (roomId : string) : list Message :=
  match content with
  | Many texts => List.map (fun text => prepareMessage (TextContent text) (Some roomId)) texts
  | Single c => [prepareMessage c None]
  end.

Fixpoint sequence {A} (l : list (Eff A)) : Eff (list A) :=
  match l with
  | [] => ret []
  | m :: rest => x ← m; xs ← sequence rest; ret (x :: xs)
  end.

(** [sendMessage(message)] as called from the [map] below, without a
    room id. *)
Definition sendMessage_prepared (message : Message) : Eff (Settlement JsVal) :=
  asyncCall "sendMessage" (JMessage message).

Definition sendMessageByRoomId (content : Content) (roomId : string)
  : Eff (Settlement (list JsVal)) :=
  let messages := prepareMessages content roomId in
  ps ← sequence (List.map sendMessage_prepared messages);
  ret (promise_all ps).

(** *** Connecting *)

(** The options of [connect]: a key is either absent ([None]) or holds
    a value of its type. *)
Record IOptions := mkOptions {
  host : option string;
  useSsl : option bool;
  timeout : option Z
}.

(** [process.env.X || dflt] on strings: unset and empty both fall back. *)
Definition or_default (o : option string) (dflt : string) : string :=
  match o with
  | Some s => if String.eqb s "" then dflt else s
  | None => dflt
  end.

Definition defaults (env : Env) : IOptions :=
  {| host := Some (or_default (ROCKETCHAT_URL env) "localhost:3000");
     useSsl := Some (String.prefix "https" (or_default (ROCKETCHAT_URL env) ""));
     timeout := Some (20 * 1000)%Z |}.

(** [Object.assign({}, defaults, options)] *)
Definition assign (dflt options : IOptions) : IOptions :=
  {| host := host options ∪ host dflt;
     useSsl := useSsl options ∪ useSsl dflt;
     timeout := timeout options ∪ timeout dflt |}.

(** [\w] *)
Definition is_word (c : Ascii.ascii) : bool :=
  let n := Ascii.nat_of_ascii c in
  (((48 <=? n) && (n <=? 57)) || ((65 <=? n) && (n <=? 90))
   || ((97 <=? n) && (n <=? 122)) || (n =? 95))%nat.

Fixpoint skip_word (s : string) : string :=
  match s with
  | String c rest => if is_word c then skip_word rest else s
  | EmptyString => s
  end.

Definition drop_chars (n : nat) (s : string) : string :=
  String.substring n (String.length s - n) s.

(** [h.replace(/(^\w+:|^)\/\//, '')] *)
Definition strip_protocol (h : string) : string :=
  let rest := skip_word h in
  if negb (String.eqb rest h) && String.prefix "://" rest then drop_chars 3 rest
  else if String.prefix "//" h then drop_chars 2 h
  else h.

Inductive Timer := Armed | Cleared | Fired.

(** What one [connect] call leaves behind in the event loop: its
    configuration, whether a callback was given, its timer, whether its
    [events.once('connected')] listener is still registered, and the
    promise it returned. *)
Record Connection := mkConnection {
  config : IOptions;
  callback : bool;
  rejectionTimeout : Timer;
  onceConnected : bool;
  awaitable : Settlement IAsteroid
}.

(** [resolve] and [reject] settle a promise once; later calls are inert. *)
Definition resolve {A} (v : A) (p : Settlement A) : Settlement A :=
  match p with Pending => Fulfilled v | _ => p end.

Definition reject {A} (e : Error) (p : Settlement A) : Settlement A :=
  match p with Pending => Rejected e | _ => p end.

Definition clearTimeout (t : Timer) : Timer :=
  match t with Armed => Cleared | _ => t end.

(** The synchronous part of [connect(options, callback)]; [Asteroid] is
    the constructor of the transport client. *)
Definition connect (env : Env) (Asteroid : string -> bool -> IAsteroid)
    (options : IOptions) (callback : bool) : Eff Connection :=
  let config := assign (defaults env) options in
  let config := {| host := strip_protocol <$> host config;
                   useSsl := useSsl config;
                   timeout := timeout config |} in
  logger.info "[connect] Connecting" (host config ≫= fun h => Some (JStr h));;
  set_asteroid (Asteroid (default "" (host config)) (default false (useSsl config)));;
  a ← gets asteroid;
  setupMethodCache env a;;
  ret {| config := config;
         callback := callback;
         rejectionTimeout := Armed;
         onceConnected := true;
         awaitable := Pending |}.

(** What the event loop can deliver to a pending [connect]. *)
Inductive Stimulus :=
| AsteroidConnected       (* the transport emits 'connected' *)
| AsteroidReconnected     (* the transport emits 'reconnected' *)
| TimeoutElapsed.         (* [config.timeout] ms have passed *)

#[global] Instance Stimulus_eq_dec : EqDecision Stimulus.
Proof. solve_decision. Defined.

Definition timeoutError : Error := mkError "Asteroid connection timeout".

Definition deliver (c : Connection) (s : Stimulus) : Eff Connection :=
  match s with
  | AsteroidConnected =>
      perform (EEmit connected);;
      if onceConnected c then
        logger.info "[connect] Connected" None;;
        (if callback c then perform (EConnectCallback None) else ret tt);;
        a ← gets asteroid;
        ret {| config := config c;
               callback := callback c;
               rejectionTimeout := clearTimeout (rejectionTimeout c);
               onceConnected := false;
               awaitable := resolve a (awaitable c) |}
      else ret c
  | AsteroidReconnected =>
      perform (EEmit reconnected);;
      ret c
  | TimeoutElapsed =>
      match rejectionTimeout c with
      | Armed =>
          logger.info "[connect] Timeout" (timeout (config c) ≫= fun t => Some (JNum t));;
          if callback c then
            perform (EConnectCallback (Some timeoutError));;
            ret {| config := config c;
                   callback := true;
                   rejectionTimeout := Fired;
                   onceConnected := onceConnected c;
                   awaitable := awaitable c |}
          else
            ret {| config := config c;
                   callback := false;
                   rejectionTimeout := Fired;
                   onceConnected := onceConnected c;
                   awaitable := reject timeoutError (awaitable c) |}
      | _ => ret c
      end
  end.

Fixpoint run (c : Connection) (stimuli : list Stimulus) : Eff Connection :=
  match stimuli with
  | [] => ret c
  | s :: rest => c' ← deliver c s; run c' rest
  end.

(** [connect] followed by what the event loop delivers. *)
Definition connect_then (env : Env) (Asteroid : string -> bool -> IAsteroid)
    (options : IOptions) (callback : bool) (stimuli : list Stimulus)
  : Eff Connection :=
  c ← connect env Asteroid options callback;
  run c stimuli.

(** *** The timer of [connect] on the clock *)

(** What the transport emits. *)
Inductive TransportEvent := TransportConnected | TransportReconnected.

Definition stimulus_of (e : TransportEvent) : Stimulus :=
  match e with
  | TransportConnected => AsteroidConnected
  | TransportReconnected => AsteroidReconnected
  end.

(** [setTimeout(f, delay)]: the runtime reads a delay below 1 or above
    2147483647 ms as 1 ms. *)
Definition timer_delay (t : Z) : Z :=
  if ((1 <=? t) && (t <=? 2147483647))%Z then t else 1%Z.

(** The delay of the timer that [connect] arms,
    [setTimeout(..., config.timeout)]. *)
Definition window (c : Connection) : Z :=
  timer_delay (default 0%Z (timeout (config c))).

(** A timeline lists what the transport emits once [connect] has
    returned, in order, each event with its time in ms since then.  The
    event loop delivers the events that come before the timer is due,
    then runs the timer, then delivers the other events. *)
Fixpoint until_timer (delay : Z) (timeline : list (Z * TransportEvent))
  : list Stimulus :=
  match timeline with
  | [] => [TimeoutElapsed]
  | (t, e) :: rest =>
      if (t <? delay)%Z then stimulus_of e :: until_timer delay rest
      else [TimeoutElapsed]
  end.

Fixpoint after_timer (delay : Z) (timeline : list (Z * TransportEvent))
  : list Stimulus :=
  match timeline with
  | [] => []
  | (t, e) :: rest =>
      if (t <? delay)%Z then after_timer delay rest
      else List.map (fun p => stimulus_of (snd p)) timeline
  end.

Definition schedule (delay : Z) (timeline : list (Z * TransportEvent))
  : list Stimulus :=
  until_timer delay timeline ++ after_timer delay timeline.

(** [connect] and what follows until its timer has run, that is, to the
    end of the timeout window. *)
Definition connect_until_timeout (env : Env)
    (Asteroid : string -> bool -> IAsteroid) (options : IOptions)
    (callback : bool) (timeline : list (Z * TransportEvent)) : Eff Connection :=
  c ← connect env Asteroid options callback;
  run c (until_timer (window c) timeline).

(** [connect] and all that follows on the timeline. *)
Definition connect_over (env : Env)
    (Asteroid : string -> bool -> IAsteroid) (options : IOptions)
    (callback : bool) (timeline : list (Z * TransportEvent)) : Eff Connection :=
  c ← connect env Asteroid options callback;
  run c (schedule (window c) timeline).

(** ** Observations on traces *)

Definition stops (t : list Effect) : list ISubscription :=
  omap (fun e => match e with EStop s => Some s | _ => None end) t.

Definition emitted (t : list Effect) : list LifecycleEvent :=
  omap (fun e => match e with EEmit ev => Some ev | _ => None end) t.

Definition connectCallbacks (t : list Effect) : list (option Error) :=
  omap (fun e => match e with EConnectCallback err => Some err | _ => None end) t.

Definition callbacks (t : list Effect)
  : list (option Error * option JsVal * option JsVal) :=
  omap (fun e => match e with ECallback err a b => Some (err, a, b) | _ => None end) t.

Definition remoteCalls (t : list Effect) : list (string * JsVal) :=
  omap (fun e => match e with
                 | EApply m p => Some (m, p)
                 | ERemoteCall m k => Some (m, k)
                 | _ => None
                 end) t.

Definition errorsLogged (t : list Effect) : list (string * Error) :=
  omap (fun e => match e with
                 | ELog (LogError text err) => Some (text, err)
                 | _ => None
                 end) t.

(** Elements at odd and at even positions (counting from 0). *)
Fixpoint odds {A} (l : list A) : list A :=
  match l with
  | _ :: y :: rest => y :: odds rest
  | _ => []
  end.

Fixpoint evens {A} (l : list A) : list A :=
  match l with
  | x :: _ :: rest => x :: evens rest
  | [x] => [x]
  | [] => []
  end.

(** What unsubscribing the subscriptions of [l], in order, adds to the
    trace. *)
Definition unsubscribed_log (l : list ISubscription) : list Effect :=
  l ≫= fun s =>
    [EStop s; ELog (LogInfo "Unsubscribed" (Some (JNum (Z.of_nat (id s)))))].

Definition with_trace (d : Driver) (t : list Effect) : Driver :=
  mkDriver (asteroid d) (subscriptions d) (messages d) (buckets d) (now d) t.

(** What the two handlers of [asyncCall] and [cacheCall] do with a
    promise: log, and hand the settlement on unchanged. *)
Definition outcome_log (method : string) (p : Settlement JsVal) : list Effect :=
  match p with
  | Pending => []
  | Fulfilled v =>
      [ELog (if truthy v
             then LogDebug ("[" ++ method ++ "] Success: ") (Some v)
             else LogDebug ("[" ++ method ++ "] Success") None)]
  | Rejected e => [ELog (LogError ("[" ++ method ++ "] Error:") e)]
  end.

Definition as_array (params : JsVal) : JsVal :=
  if isArray params then params else JArr [params].

Definition with_buckets (d : Driver) (bs : gmap string MethodCacheBucket)
  : Driver :=
  mkDriver (asteroid d) (subscriptions d) (messages d) bs (now d) (trace d).

(** A cache call made after a first [cacheCall(method, key)], [dt] ms
    after the call before it: for the same method and key, for another
    string key of that method, or for another method. *)
Inductive LaterCall :=
| SameKey (dt : Z)
| OtherKey (other : string) (dt : Z)
| OtherMethod (name : string) (k : JsVal) (dt : Z).

Definition is_same (c : LaterCall) : bool :=
  match c with SameKey _ => true | _ => false end.

Definition later_call (method s : string) (c : LaterCall)
  : Eff (option (Settlement JsVal)) :=
  match c with
  | SameKey dt => advance dt;; p ← cacheCall method (JStr s); ret (Some p)
  | OtherKey other dt => advance dt;; cacheCall method (JStr other);; ret None
  | OtherMethod name k dt => advance dt;; cacheCall name k;; ret None
  end.

(** A first [cacheCall(method, key)] and the cache calls after it; the
    result lists what the promise of each caller for the key settles
    to. *)
Definition calls_for_key (method s : string) (later : list LaterCall)
  : Eff (list (Settlement JsVal)) :=
  first ← cacheCall method (JStr s);
  rest ← sequence (List.map (later_call method s) later);
  ret (first :: omap (fun o => o) rest).

(** Every later call for the key comes no later than [maxAge] after the
    first and after calls for fewer than [capacity] distinct other keys
    of the method since the call for the key before it; [seen] lists
    the other keys called since then and [elapsed] is the time since the
    first call. *)
Fixpoint in_reach (capacity maxAge : Z) (seen : list string) (elapsed : Z)
    (later : list LaterCall) : Prop :=
  match later with
  | [] => True
  | SameKey dt :: rest =>
      (Z.of_nat (length (remove_dups seen)) < capacity)%Z ∧
      (elapsed + dt ≤ maxAge)%Z ∧
      in_reach capacity maxAge [] (elapsed + dt) rest
  | OtherKey other dt :: rest =>
      in_reach capacity maxAge (other :: seen) (elapsed + dt) rest
  | OtherMethod _ _ dt :: rest =>
      in_reach capacity maxAge seen (elapsed + dt) rest
  end.

(** The other keys differ from the key under study and the other
    methods from its method. *)
Definition others_differ (method s : string) (later : list LaterCall) : Prop :=
  Forall (fun c => match c with
                   | SameKey _ => True
                   | OtherKey other _ => other ≠ s
                   | OtherMethod name _ _ => name ≠ method
                   end) later.

(** The key has no entry in the bucket that a lookup at time [t] would
    return. *)
Definition uncached (b : MethodCacheBucket) (t : Z) (k : JsVal) : Prop :=
  ∀ x, methodCache.find_entry k (entries b) = Some x →
       methodCache.expired b t x = true.

(** The number of remote invocations of [method] with the key [s] in a
    trace. *)
Definition invocations_for (method s : string) (t : list Effect) : nat :=
  length (List.filter (fun c => String.eqb (fst c) method
                                && JsVal_eqb (snd c) (JStr s))
                      (remoteCalls t)).

(** The entry [e] is among [es], behind entries for distinct string
    keys among [seen] only, none of them its own key. *)
Definition holds_entry (e : CacheEntry) (seen : list string)
    (es : list CacheEntry) : Prop :=
  ∃ pre post ks,
    es = pre ++ e :: post ∧
    List.map key pre = List.map JStr ks ∧ NoDup ks ∧
    (∀ k, k ∈ ks → k ∈ seen) ∧
    Forall (fun x => JsVal_eqb (key x) (key e) = false) pre.

(** The bucket of [method] has the policy [cap], [age] and, as long as
    [seen] has fewer distinct keys than the capacity, holds the entry
    [e] behind entries for keys of [seen] only. *)
Definition cache_holds (method : string) (e : CacheEntry) (cap age : Z)
    (seen : list string) (d : Driver) : Prop :=
  ∃ b, buckets d !! method = Some b ∧ capacity b = cap ∧ maxAgeMs b = age ∧
       ((Z.of_nat (length (remove_dups seen)) < cap)%Z →
        holds_entry e seen (entries b)).

(** The number of calls for the key under study among the later calls. *)
Definition same_key_calls (later : list LaterCall) : nat :=
  length (List.filter is_same later).

(** Every active subscription was handed out by an earlier call of
    [asteroid.subscribe], which numbers the subscriptions it creates. *)
Definition handed_out (d : Driver) : Prop :=
  Forall (fun s => id s < length (List.filter is_subscribe (trace d)))
         (subscriptions d).

(** A stimulus that a pending [connect] in state [c] lets pass without
    settling anything: a reconnection, or a timer that is no longer
    armed. *)
Definition inert (c : Connection) (s : Stimulus) : Prop :=
  s = AsteroidReconnected ∨ (s = TimeoutElapsed ∧ rejectionTimeout c ≠ Armed).

(** The effects performed between the states [d] and [d']. *)
Definition since (d d' : Driver) : list Effect :=
  drop (length (trace d)) (trace d').

(** ** Sample environments *)

Definition env0 : Env := mkEnv None None None None None.

(** A server that never answers. *)
Definition silent (h : string) (s : bool) : IAsteroid :=
  {| endpoint := h; ssl := s;
     result := fun _ => Pending;
     ready := fun _ => Pending;
     logoutResult := Fulfilled tt;
     getCollection := fun n => mkCollection n (fun _ => None) |}.

(** A server that rejects every call with the same error. *)
Definition failing (err : Error) (h : string) (s : bool) : IAsteroid :=
  {| endpoint := h; ssl := s;
     result := fun _ => Rejected err;
     ready := fun _ => Rejected err;
     logoutResult := Rejected err;
     getCollection := fun n => mkCollection n (fun _ => None) |}.

Definition boot (a : IAsteroid) : Driver :=
  {| asteroid := a; subscriptions := []; messages := None;
     buckets := ∅; now := 0; trace := [] |}.

(** The module state right after [connect()] with default options. *)
Definition connected0 (Asteroid : string -> bool -> IAsteroid) : Driver :=
  exec (connect env0 Asteroid (mkOptions None None None) false)
       (boot (Asteroid "" false)).

Definition sub0 : ISubscription := mkSubscription 0 "stream-room-messages" "GENERAL".
Definition sub1 : ISubscription := mkSubscription 1 "stream-room-messages" "random".

(** A server that answers every call with [answer] and reports every
    subscription ready. *)
Definition willing (answer : JsVal) (h : string) (s : bool) : IAsteroid :=
  {| endpoint := h; ssl := s;
     result := fun _ => Fulfilled answer;
     ready := fun sub => Fulfilled (id sub);
     logoutResult := Fulfilled tt;
     getCollection := fun n => mkCollection n (fun _ => None) |}.

(** ** Further operations of the driver *)

(** [p.then(h)] for a handler that returns a promise, which the result
    then follows. *)
Definition promise_chain {A B} (p : Settlement A) (h : A -> Eff (Settlement B))
  : Eff (Settlement B) :=
  match p with
  | Fulfilled v => h v
  | Rejected e => ret (Rejected e)
  | Pending => ret Pending
  end.

Definition getRoomName (i : string) : Eff (Settlement JsVal) :=
  cacheCall "getRoomNameById" (JStr i).

(** [DM.rid].  Reading a property of [undefined] or [null] throws; a
    value without the property gives [undefined].  What an instance of
    the [Message] class holds as [rid] is given by [instance_rid]. *)
Definition read_rid (instance_rid : Message -> JsVal) (DM : JsVal)
  : JsVal + Error :=
  match DM with
  | JUndefined | JNull => inr typeError
  | JObj fields => inl (default JUndefined (own_property "rid" fields))
  | JData m => inl (from_option JStr JUndefined (rid m))
  | JMessage m => inl (instance_rid m)
  | JBool _ | JNum _ | JStr _ | JArr _ => inl JUndefined
  end.

Definition getDirectMessageRoomId (instance_rid : Message -> JsVal)
    (username : string) : Eff (Settlement JsVal) :=
  p ← cacheCall "createDirectMessage" (JStr username);
  promise_then p (fun DM => ret (read_rid instance_rid DM)).

Definition joinRoom (room : string) : Eff (Settlement JsVal) :=
  p ← getRoomId room;
  promise_chain p (fun roomId => asyncCall "joinRoom" roomId).

(** [sendMessage(message, roomId?)] on a message given as plain data;
    with a room id the promise is the one of [Promise.all], an array. *)
Definition sendMessage (message : IMessage) (roomId : option string)
  : Eff (Settlement JsVal) :=
  match roomId with
  | Some r =>
      if truthy (JStr r)
      then p ← sendMessageByRoomId (Single (ObjectContent message)) r;
           ret (match p with
                | Fulfilled vs => Fulfilled (JArr vs)
                | Rejected e => Rejected e
                | Pending => Pending
                end)
      else asyncCall "sendMessage" (JData message)
  | None => asyncCall "sendMessage" (JData message)
  end.

Definition customMessage (message : IMessage) : Eff (Settlement JsVal) :=
  sendMessage message None.

(** *** Logging in *)

(** The fields of [ICredentials] that [login] reads. *)
Record ICredentials := mkCredentials {
  username : option string;
  email : option string;
  password : string
}.

(** The login request sent to the transport.  [loginWithLDAP] also gets
    the constant [{ ldap: true, ldapOptions: {} }]. *)
Inductive LoginCall :=
| loginWithLDAP (username : option string) (password : string)
| loginWithPassword (usernameOrEmail : string) (password : string).

(** [a || b] on optional strings: the first that is set and not empty,
    else the second, as it is. *)
Definition or_else (a b : option string) : option string :=
  match a with
  | Some s => if String.eqb s "" then b else a
  | None => b
  end.

(** A value inside a template literal. *)
Definition interpolate (o : option string) : string := default "undefined" o.

(** [login(credentials)].  [ROCKETCHAT_AUTH] is the environment variable
    of that name and [answer] the transport's answer to a login request;
    the request made is returned beside the promise. *)
Definition login (ROCKETCHAT_AUTH : option string)
    (answer : LoginCall -> Settlement JsVal) (credentials : ICredentials)
  : Eff (LoginCall * Settlement JsVal) :=
  logger.info ("[login] Logging in "
               ++ interpolate (or_else (username credentials) (email credentials)))
              None;;
  let request :=
    if bool_decide (ROCKETCHAT_AUTH = Some "ldap")
    then loginWithLDAP (username credentials) (password credentials)
    else loginWithPassword
           (or_default (or_else (username credentials) (email credentials)) "bot")
           (password credentials) in
  p ← promise_catch (answer request)
        (fun err =>
           logger.info "[login] Error:" (Some (JStr (message err)));;
           ret (inr err));
  ret (request, p).

(** *** Plain predicates on host strings *)

(** Every character is a word character ([\w]). *)
Fixpoint all_word (s : string) : bool :=
  match s with
  | String c rest => is_word c && all_word rest
  | EmptyString => true
  end.

(** No character is a slash (code 47). *)
Fixpoint no_slash (s : string) : bool :=
  match s with
  | String c rest => negb (Ascii.eqb c (Ascii.ascii_of_nat 47)) && no_slash rest
  | EmptyString => true
  end.

(** A [connect] call whose own listener is gone and whose timer is no
    longer armed. *)
Definition finished (c : Connection) : Prop :=
  onceConnected c = false ∧ rejectionTimeout c ≠ Armed.

(** The lifecycle event a stimulus puts on the event stream, if any. *)
Definition forwarded (s : Stimulus) : option LifecycleEvent :=
  match s with
  | AsteroidConnected => Some connected
  | AsteroidReconnected => Some reconnected
  | TimeoutElapsed => None
  end.

(** Unfold the primitive state operations and compute. *)
Ltac eff_simpl :=
  unfold logger.info, logger.debug, logger.error, perform, set_subscriptions,
    set_messages, set_buckets, set_asteroid, advance, gets, bind, ret,
    exec, eval in *;
  cbn in *.

(** Compute the fields of an explicitly given state. *)
Ltac proj_simpl :=
  unfold with_trace, with_buckets;
  cbn [fst snd asteroid subscriptions messages buckets now trace
       capacity maxAgeMs entries key promise insertedAt].

(** * Properties *)

(** ** The state monad *)

Lemma exec_bind {A B} (m : Eff A) (k : A -> Eff B) d :
  exec (bind m k) d = exec (k (eval m d)) (exec m d).
Proof. unfold exec, eval, bind. by destruct (m d). Qed.

Lemma eval_bind {A B} (m : Eff A) (k : A -> Eff B) d :
  eval (bind m k) d = eval (k (eval m d)) (exec m d).
Proof. unfold exec, eval, bind. by destruct (m d). Qed.

Lemma run_pair {A} (m : Eff A) d : m d = (exec m d, eval m d).
Proof. unfold exec, eval. by destruct (m d). Qed.

Lemma exec_ret {A} (a : A) d : exec (ret a) d = d.
Proof. done. Qed.

Lemma eval_ret {A} (a : A) d : eval (ret a) d = a.
Proof. done. Qed.


(** ** Subscriptions *)

Lemma indexOf_middle kept x rest :
  x ∉ kept → indexOf x (kept ++ x :: rest) = Some (length kept).
Proof.
  intros Hx. unfold indexOf.
  assert (list_find (λ s, s = x) (kept ++ x :: rest) = Some (length kept, x)) as ->;
    [|done].
  apply list_find_Some. split_and!; [by apply list_lookup_middle|done|].
  intros j y Hj Hlt ->. apply Hx.
  rewrite lookup_app_l in Hj by done. by eapply list_elem_of_lookup_2.
Qed.

Lemma unsubscribe_present d kept x rest :
  subscriptions d = kept ++ x :: rest → x ∉ kept →
  unsubscribe x d =
    (mkDriver (asteroid d) (kept ++ rest) (messages d) (buckets d) (now d)
              (trace d ++ unsubscribed_log [x]), tt).
Proof.
  intros Hs Hx. unfold unsubscribe, bind, gets. rewrite Hs, indexOf_middle by done.
  rewrite delete_middle. eff_simpl. by rewrite <- app_assoc.
Qed.

Lemma unsubscribe_absent d x :
  x ∉ subscriptions d → unsubscribe x d = (d, tt).
Proof.
  intros Hx. unfold unsubscribe, bind, gets, indexOf.
  assert (list_find (λ s, s = x) (subscriptions d) = None) as ->; [|done].
  apply list_find_None, Forall_forall. by intros y Hy ->.
Qed.

(** Once the index has passed the end of the array, [map] visits nothing. *)
Lemma map_from_beyond f steps : ∀ k d,
  length (subscriptions d) ≤ k → map_from f k steps d = (d, tt).
Proof.
  induction steps as [|steps IH]; intros k d Hk; [done|].
  cbn. unfold bind, gets. rewrite lookup_ge_None_2 by done. cbn.
  apply IH. lia.
Qed.

(** The loop of [unsubscribeAll]: with [kept] already passed over and
    [rest] ahead, every other element of [rest] is unsubscribed. *)
Lemma map_from_unsubscribe steps : ∀ kept rest d,
  NoDup (kept ++ rest) →
  subscriptions d = kept ++ rest →
  length rest ≤ 2 * steps →
  map_from unsubscribe (length kept) steps d =
    (mkDriver (asteroid d) (kept ++ odds rest) (messages d) (buckets d) (now d)
              (trace d ++ unsubscribed_log (evens rest)), tt).
Proof.
  induction steps as [|steps IH]; intros kept rest d Hnd Hs Hlen.
  - destruct rest; [|simpl in Hlen; lia].
    cbn. unfold ret. rewrite !app_nil_r in *. rewrite <- Hs. by destruct d.
  - destruct rest as [|x [|y rest]].
    + rewrite map_from_beyond by (rewrite Hs, app_nil_r; done).
      cbn. rewrite !app_nil_r in *. rewrite <- Hs. by destruct d.
    + cbn [map_from]. unfold bind at 1 2. unfold gets at 1.
      rewrite Hs, list_lookup_middle by done.
      apply NoDup_app in Hnd as (_ & Hdisj & _).
      assert (x ∉ kept) as Hx by (intros ?; eapply Hdisj; [done|left]).
      rewrite (unsubscribe_present d kept x []) by done.
      rewrite map_from_beyond by (cbn; rewrite app_nil_r; lia).
      done.
    + cbn [map_from]. unfold bind at 1 2. unfold gets at 1.
      rewrite Hs, list_lookup_middle by done.
      pose proof Hnd as Hnd'.
      apply NoDup_app in Hnd' as (Hk & Hdisj & Hr).
      assert (x ∉ kept) as Hx by (intros ?; eapply Hdisj; [done|left]).
      rewrite (unsubscribe_present d kept x (y :: rest)) by done.
      replace (S (length kept)) with (length (kept ++ [y]))
        by (rewrite length_app; simpl; lia).
      rewrite (IH (kept ++ [y]) rest).
      * cbn. rewrite <- !app_assoc. done.
      * rewrite <- app_assoc. cbn.
        apply NoDup_app. split_and!; [done| |].
        -- intros z Hz Hz'. eapply Hdisj; [done|by right].
        -- by apply NoDup_cons in Hr as [_ ?].
      * cbn. by rewrite <- app_assoc.
      * simpl in Hlen. lia.
Qed.

Lemma unsubscribeAll_spec d :
  NoDup (subscriptions d) →
  unsubscribeAll d =
    (mkDriver (asteroid d) (odds (subscriptions d)) (messages d) (buckets d)
              (now d) (trace d ++ unsubscribed_log (evens (subscriptions d))), tt).
Proof.
  intros Hnd. unfold unsubscribeAll, bind, gets.
  apply (map_from_unsubscribe _ [] (subscriptions d) d); [done..|lia].
Qed.

Lemma exec_unsubscribeAll d :
  NoDup (subscriptions d) →
  exec unsubscribeAll d =
    mkDriver (asteroid d) (odds (subscriptions d)) (messages d) (buckets d)
             (now d) (trace d ++ unsubscribed_log (evens (subscriptions d))).
Proof. intros Hnd. unfold exec. by rewrite unsubscribeAll_spec. Qed.

Lemma stops_unsubscribed_log l : stops (unsubscribed_log l) = l.
Proof. induction l as [|x l IH]; [done|]. cbn. f_equal. exact IH. Qed.

(** C2 (code defect).  [unsubscribeAll] runs [map] over the very array
    that [unsubscribe] splices, so every other subscription is skipped:
    with distinct active subscriptions, those at even positions are
    stopped, once each, and those at odd positions stay in the active
    set.  The set is left empty only when it held at most one
    subscription. *)
Theorem unsubscribeAll_skips_every_other d :
  NoDup (subscriptions d) →
  subscriptions (exec unsubscribeAll d) = odds (subscriptions d) ∧
  stops (trace (exec unsubscribeAll d))
    = stops (trace d) ++ evens (subscriptions d).
Proof.
  intros Hnd. rewrite exec_unsubscribeAll by done. cbn.
  split; [done|]. unfold stops. rewrite omap_app.
  f_equal. apply stops_unsubscribed_log.
Qed.

Lemma unsubscribeAll_skips_every_other_witness :
  NoDup (subscriptions (exec (set_subscriptions [sub0; sub1]) (boot (silent "" false)))) ∧
  subscriptions (exec unsubscribeAll
                   (exec (set_subscriptions [sub0; sub1]) (boot (silent "" false))))
    = [sub1] ∧
  stops (trace (exec unsubscribeAll
                  (exec (set_subscriptions [sub0; sub1]) (boot (silent "" false)))))
    = [sub0].
Proof.
  assert (NoDup (subscriptions
                   (exec (set_subscriptions [sub0; sub1]) (boot (silent "" false)))))
    as Hnd by (apply (bool_decide_unpack _); vm_compute; exact I).
  split; [exact Hnd|].
  exact (unsubscribeAll_skips_every_other _ Hnd).
Defined.

(** The round trip of a single subscription does work: one [subscribe]
    on an empty set followed by [unsubscribeAll] empties the set and
    stops the subscription once, whatever its readiness. *)
Lemma subscribe_unsubscribeAll_single d topic roomId :
  subscriptions d = [] →
  subscriptions (exec (subscribe topic roomId;; unsubscribeAll) d) = [] ∧
  stops (trace (exec (subscribe topic roomId;; unsubscribeAll) d))
    = stops (trace d) ++ [eval (asteroid_subscribe topic roomId)
                            (exec (logger.info "" None) d)].
Proof.
  intros Hs. rewrite exec_bind.
  set (d1 := exec (subscribe topic roomId) d).
  assert (subscriptions d1
          = [eval (asteroid_subscribe topic roomId) (exec (logger.info "" None) d)]
          ∧ stops (trace d1) = stops (trace d)) as [Hs1 Ht1].
  { subst d1. unfold subscribe, asteroid_subscribe, push, promise_then.
    eff_simpl. rewrite Hs.
    rewrite !List.filter_app. cbn. rewrite !app_nil_r.
    destruct (ready (asteroid d) _); cbn;
      unfold stops; rewrite ?omap_app; cbn; rewrite ?app_nil_r; done. }
  assert (NoDup (subscriptions d1)) as Hnd by (rewrite Hs1; apply NoDup_singleton).
  rewrite (exec_unsubscribeAll d1 Hnd). cbn [subscriptions trace].
  rewrite Hs1. split; [done|].
  unfold stops in *. rewrite omap_app, Ht1. done.
Qed.

(** C6 (code defect, the same one as C2).  [disconnect] relies on
    [unsubscribeAll], so with distinct active subscriptions only those at
    even positions have been stopped when [logout] is issued, none is
    stopped afterwards, and those at odd positions are still in the
    active set once [disconnect] is done. *)
Theorem disconnect_leaves_subscriptions d :
  NoDup (subscriptions d) →
  subscriptions (exec disconnect d) = odds (subscriptions d) ∧
  ∃ before after,
    trace (exec disconnect d) = trace d ++ before ++ ELogout :: after ∧
    stops before = evens (subscriptions d) ∧
    stops after = [].
Proof.
  intros Hnd. unfold disconnect.
  rewrite exec_bind, exec_bind.
  set (d1 := exec (logger.info _ None) d).
  assert (NoDup (subscriptions d1)) as Hnd1 by done.
  rewrite (exec_unsubscribeAll d1 Hnd1).
  unfold logout, promise_catch, promise_then. subst d1.
  destruct (logoutResult (asteroid d)) eqn:Hl; eff_simpl; rewrite Hl; cbn;
    (split; [done|]).
  all: eexists (_ :: unsubscribed_log (evens (subscriptions d))), _.
  all: rewrite <- !app_assoc; cbn; split; [reflexivity|].
  all: split; [apply stops_unsubscribed_log | done].
Qed.

Lemma disconnect_leaves_subscriptions_witness :
  NoDup (subscriptions (exec (set_subscriptions [sub0; sub1]) (boot (silent "" false)))) ∧
  subscriptions (exec disconnect
                   (exec (set_subscriptions [sub0; sub1]) (boot (silent "" false))))
    = [sub1].
Proof.
  assert (NoDup (subscriptions
                   (exec (set_subscriptions [sub0; sub1]) (boot (silent "" false)))))
    as Hnd by (apply (bool_decide_unpack _); vm_compute; exact I).
  split; [exact Hnd|].
  exact (proj1 (disconnect_leaves_subscriptions _ Hnd)).
Defined.

(** ** Direct and cached calls *)

Lemma invocations_app t u :
  methodCache.invocations (t ++ u)
  = methodCache.invocations t + methodCache.invocations u.
Proof. unfold methodCache.invocations. by rewrite List.filter_app, length_app. Qed.

Lemma catch_then_run method (p : Settlement JsVal) d :
  bind (promise_catch p (log_and_rethrow method))
       (fun q => promise_then q (log_success method)) d
  = (with_trace d (trace d ++ outcome_log method p), p).
Proof.
  destruct p as [|v|e]; unfold promise_catch, promise_then, log_and_rethrow,
    log_success, with_trace; eff_simpl.
  - rewrite app_nil_r. by destruct d.
  - by destruct (truthy v).
  - done.
Qed.

Lemma asyncCall_run method params d :
  asyncCall method params d =
    (with_trace d
       (trace d
        ++ [ELog (LogInfo ("[" ++ method ++ "] Calling (async): ")
                          (Some (as_array params)));
            EApply method (as_array params)]
        ++ outcome_log method
             (result (asteroid d) (methodCache.invocations (trace d)))),
     result (asteroid d) (methodCache.invocations (trace d))).
Proof.
  unfold asyncCall, asteroid_apply, promise_catch, promise_then,
    log_and_rethrow, log_success, with_trace, outcome_log.
  fold (as_array params). eff_simpl.
  rewrite invocations_app. cbn. rewrite Nat.add_0_r.
  destruct (result (asteroid d) (methodCache.invocations (trace d))) as [|v|e];
    [|destruct (truthy v)..|]; eff_simpl; rewrite <- !app_assoc; reflexivity.
Qed.

Lemma cacheCall_run method k d :
  cacheCall method k d =
    let d1 := exec (methodCache.call method k) d in
    let p := result (asteroid d1) (eval (methodCache.call method k) d) in
    (with_trace d1 (trace d1 ++ outcome_log method p), p).
Proof.
  unfold cacheCall. unfold bind at 1. rewrite (run_pair (methodCache.call method k) d).
  unfold bind at 1. unfold gets at 1. cbv zeta.
  by rewrite catch_then_run.
Qed.

(** The cache never touches the transport handle, the subscriptions or
    the clock. *)
Lemma call_frame method k d :
  let d1 := exec (methodCache.call method k) d in
  asteroid d1 = asteroid d ∧ subscriptions d1 = subscriptions d ∧ now d1 = now d.
Proof.
  unfold methodCache.call, methodCache.get, methodCache.put, methodCache.remote,
    methodCache.set_entries.
  eff_simpl.
  destruct (buckets d !! method) as [b|] eqn:Hb; cbn.
  - destruct (methodCache.find_entry k (entries b)) as [e|]; cbn.
    + destruct (methodCache.expired b (now d) e); cbn; [rewrite Hb|]; done.
    + by rewrite Hb.
  - by rewrite Hb.
Qed.

(** C8.  When the underlying remote call rejects, [asyncCall] and
    [cacheCall] log the error and reject with that same error: the
    caller sees the original error, and the error is the last thing
    logged. *)
Theorem rejection_logged_and_rethrown d method params k e :
  (result (asteroid d) (methodCache.invocations (trace d)) = Rejected e →
   eval (asyncCall method params) d = Rejected e ∧
   trace (exec (asyncCall method params) d)
   = trace d
     ++ [ELog (LogInfo ("[" ++ method ++ "] Calling (async): ")
                       (Some (as_array params)));
         EApply method (as_array params);
         ELog (LogError ("[" ++ method ++ "] Error:") e)]) ∧
  (result (asteroid d) (eval (methodCache.call method k) d) = Rejected e →
   eval (cacheCall method k) d = Rejected e ∧
   trace (exec (cacheCall method k) d)
   = trace (exec (methodCache.call method k) d)
     ++ [ELog (LogError ("[" ++ method ++ "] Error:") e)]).
Proof.
  split; intros Hrej.
  - unfold eval, exec. rewrite asyncCall_run, Hrej. done.
  - unfold eval at 1, exec at 1. rewrite cacheCall_run. cbv zeta.
    destruct (call_frame method k d) as [-> _]. rewrite Hrej. done.
Qed.

Lemma rejection_logged_and_rethrown_witness :
  eval (asyncCall "joinRoom" (JStr "general")) (connected0 (failing (mkError "not allowed")))
    = Rejected (mkError "not allowed") ∧
  eval (cacheCall "getRoomIdByNameOrId" (JStr "general"))
       (connected0 (failing (mkError "not allowed")))
    = Rejected (mkError "not allowed").
Proof.
  pose proof (rejection_logged_and_rethrown
                (connected0 (failing (mkError "not allowed")))
                "joinRoom" (JStr "general") (JStr "general")
                (mkError "not allowed")) as [Ha _].
  pose proof (rejection_logged_and_rethrown
                (connected0 (failing (mkError "not allowed")))
                "getRoomIdByNameOrId" (JStr "general") (JStr "general")
                (mkError "not allowed")) as [_ Hc].
  split; [exact (proj1 (Ha eq_refl)) | exact (proj1 (Hc eq_refl))].
Defined.

(** A fulfilled call hands its value on as well. *)
Lemma asyncCall_fulfilled d method params v :
  result (asteroid d) (methodCache.invocations (trace d)) = Fulfilled v →
  eval (asyncCall method params) d = Fulfilled v.
Proof. intros H. unfold eval. by rewrite asyncCall_run, H. Qed.

(** *** Dispatch *)

Lemma asyncCall_frame method params d :
  buckets (exec (asyncCall method params) d) = buckets d ∧
  remoteCalls (trace (exec (asyncCall method params) d))
  = remoteCalls (trace d) ++ [(method, as_array params)].
Proof.
  unfold exec. rewrite asyncCall_run. cbn. split; [done|].
  unfold remoteCalls. rewrite !omap_app. cbn.
  destruct (result _ _) as [|v|?]; cbn; [|destruct (truthy v)|]; by rewrite ?app_nil_r.
Qed.

(** C1 (code defect).  The test in [callMethod] is inverted: when a
    cache bucket is registered for the method, the call is made directly
    with [asyncCall], so a remote invocation is issued each time and the
    cache is neither consulted nor filled. *)
Theorem callMethod_registered_is_direct d name params :
  is_Some (buckets d !! name) →
  callMethod name params d = asyncCall name params d ∧
  buckets (exec (callMethod name params) d) = buckets d ∧
  remoteCalls (trace (exec (callMethod name params) d))
  = remoteCalls (trace d) ++ [(name, as_array params)].
Proof.
  intros Hreg.
  assert (callMethod name params d = asyncCall name params d) as Heq.
  { unfold callMethod, methodCache.has. unfold bind at 1 2, gets, ret.
    by rewrite bool_decide_true. }
  split; [done|]. unfold exec. rewrite Heq. apply asyncCall_frame.
Qed.

Lemma callMethod_registered_is_direct_witness :
  is_Some (buckets (connected0 silent) !! "getRoomIdByNameOrId") ∧
  remoteCalls (trace (exec (callMethod "getRoomIdByNameOrId" (JStr "general"))
                           (connected0 silent)))
  = [("getRoomIdByNameOrId", JArr [JStr "general"])].
Proof.
  assert (is_Some (buckets (connected0 silent) !! "getRoomIdByNameOrId")) as Hreg
    by (apply (bool_decide_unpack _); vm_compute; exact I).
  split; [exact Hreg|].
  exact (proj2 (proj2 (callMethod_registered_is_direct
                         (connected0 silent) "getRoomIdByNameOrId"
                         (JStr "general") Hreg))).
Defined.

(** The other half of the inversion: without a bucket the call goes
    through [cacheCall]. *)
Lemma callMethod_unregistered_is_cached d name params :
  buckets d !! name = None →
  callMethod name params d = cacheCall name params d.
Proof.
  intros Hreg. unfold callMethod, methodCache.has. unfold bind at 1 2, gets, ret.
  rewrite bool_decide_false; [done|]. rewrite Hreg. by intros [? ?].
Qed.

(** Two dispatches of a cached method in a row reach the server twice. *)
Example callMethod_twice_calls_twice :
  remoteCalls (trace (exec (callMethod "getRoomIdByNameOrId" (JStr "general");;
                            callMethod "getRoomIdByNameOrId" (JStr "general"))
                           (connected0 silent)))
  = [("getRoomIdByNameOrId", JArr [JStr "general"]);
     ("getRoomIdByNameOrId", JArr [JStr "general"])].
Proof. vm_compute. reflexivity. Qed.

(** *** The cache *)

Lemma call_hit d method b e k :
  buckets d !! method = Some b →
  methodCache.find_entry k (entries b) = Some e →
  methodCache.expired b (now d) e = false →
  methodCache.call method k d =
    (with_buckets d
       (<[method := mkBucket (capacity b) (maxAgeMs b)
                             (e :: methodCache.remove_key k (entries b))]>
          (buckets d)),
     promise e).
Proof.
  intros Hb Hf He.
  unfold methodCache.call, methodCache.get, methodCache.set_entries, with_buckets.
  eff_simpl. rewrite Hb. cbn. rewrite Hf. cbn. rewrite He. done.
Qed.

Lemma call_miss d method b k :
  buckets d !! method = Some b →
  methodCache.find_entry k (entries b) = None →
  methodCache.call method k d =
    (mkDriver (asteroid d) (subscriptions d) (messages d)
       (<[method := mkBucket (capacity b) (maxAgeMs b)
            (let es := mkEntry k (methodCache.invocations (trace d)) (now d)
                       :: methodCache.remove_key k (entries b) in
             if (capacity b <? Z.of_nat (length es))%Z then removelast es else es)]>
          (buckets d))
       (now d) (trace d ++ [ERemoteCall method k]),
     methodCache.invocations (trace d)).
Proof.
  intros Hb Hf.
  unfold methodCache.call, methodCache.get, methodCache.put, methodCache.remote,
    methodCache.set_entries.
  eff_simpl. rewrite Hb. cbn. rewrite Hf. cbn. rewrite Hb. done.
Qed.

Lemma remoteCalls_outcome_log t method p :
  remoteCalls (t ++ outcome_log method p) = remoteCalls t.
Proof.
  unfold remoteCalls. rewrite omap_app.
  destruct p as [|v|e]; cbn; [|destruct (truthy v)|]; by rewrite app_nil_r.
Qed.

(** *** Calls for one key among calls for other keys *)

Lemma call_stale d method b e k :
  buckets d !! method = Some b →
  methodCache.find_entry k (entries b) = Some e →
  methodCache.expired b (now d) e = true →
  methodCache.call method k d =
    (mkDriver (asteroid d) (subscriptions d) (messages d)
       (<[method := mkBucket (capacity b) (maxAgeMs b)
            (let es := mkEntry k (methodCache.invocations (trace d)) (now d)
                       :: methodCache.remove_key k (entries b) in
             if (capacity b <? Z.of_nat (length es))%Z then removelast es else es)]>
          (buckets d))
       (now d) (trace d ++ [ERemoteCall method k]),
     methodCache.invocations (trace d)).
Proof.
  intros Hb Hf He.
  unfold methodCache.call, methodCache.get, methodCache.put, methodCache.remote,
    methodCache.set_entries.
  eff_simpl. rewrite Hb. cbn. rewrite Hf. cbn. rewrite He. cbn. rewrite Hb. done.
Qed.

Lemma call_unregistered d method k :
  buckets d !! method = None →
  methodCache.call method k d =
    (with_trace d (trace d ++ [ERemoteCall method k]),
     methodCache.invocations (trace d)).
Proof.
  intros Hb.
  unfold methodCache.call, methodCache.get, methodCache.put, methodCache.remote,
    with_trace.
  eff_simpl. rewrite Hb. cbn. rewrite Hb. done.
Qed.

(** A call for a key without a live entry invokes the remote method and
    stores the new promise. *)
Lemma call_uncached d method b k :
  buckets d !! method = Some b →
  uncached b (now d) k →
  methodCache.call method k d =
    (mkDriver (asteroid d) (subscriptions d) (messages d)
       (<[method := mkBucket (capacity b) (maxAgeMs b)
            (let es := mkEntry k (methodCache.invocations (trace d)) (now d)
                       :: methodCache.remove_key k (entries b) in
             if (capacity b <? Z.of_nat (length es))%Z then removelast es else es)]>
          (buckets d))
       (now d) (trace d ++ [ERemoteCall method k]),
     methodCache.invocations (trace d)).
Proof.
  intros Hb Hu. destruct (methodCache.find_entry k (entries b)) as [x|] eqn:Hf.
  - exact (call_stale d method b x k Hb Hf (Hu x Hf)).
  - by apply call_miss.
Qed.

Lemma JsVal_eqb_JStr a s : JsVal_eqb a (JStr s) = true → a = JStr s.
Proof.
  destruct a; cbn; try done. intros H. by apply String.eqb_eq in H as ->.
Qed.

Lemma JStr_eqb_neq o s : o ≠ s → JsVal_eqb (JStr o) (JStr s) = false.
Proof. intros H. cbn. by apply String.eqb_neq. Qed.

Lemma invocations_for_outcome_log method s t m p :
  invocations_for method s (t ++ outcome_log m p) = invocations_for method s t.
Proof. unfold invocations_for. by rewrite remoteCalls_outcome_log. Qed.

Lemma invocations_for_other method s t o :
  o ≠ s →
  invocations_for method s (t ++ [ERemoteCall method (JStr o)])
  = invocations_for method s t.
Proof.
  intros Ho. unfold invocations_for, remoteCalls.
  rewrite omap_app, List.filter_app, length_app. cbn.
  rewrite (proj2 (String.eqb_neq o s) Ho), andb_false_r. cbn. lia.
Qed.

Lemma invocations_for_other_method method s t name k :
  name ≠ method →
  invocations_for method s (t ++ [ERemoteCall name k])
  = invocations_for method s t.
Proof.
  intros Hn. unfold invocations_for, remoteCalls.
  rewrite omap_app, List.filter_app, length_app. cbn.
  rewrite (proj2 (String.eqb_neq name method) Hn). cbn. lia.
Qed.

Lemma invocations_for_same method s t :
  invocations_for method s (t ++ [ERemoteCall method (JStr s)])
  = S (invocations_for method s t).
Proof.
  unfold invocations_for, remoteCalls.
  rewrite omap_app, List.filter_app, length_app. cbn.
  rewrite !String.eqb_refl. cbn. lia.
Qed.

Lemma holds_entry_find e seen es s :
  key e = JStr s → holds_entry e seen es →
  methodCache.find_entry (JStr s) es = Some e.
Proof.
  intros Hk (pre & post & ks & -> & _ & _ & _ & Hpre). unfold methodCache.find_entry.
  induction pre as [|x pre IH]; cbn.
  - rewrite Hk. cbn. by rewrite String.eqb_refl.
  - inversion Hpre as [|? ? Hx Hrest]; subst. rewrite Hk in Hx. rewrite Hx.
    by apply IH.
Qed.

(** Distinct keys that were all seen are no more than the distinct keys
    seen. *)
Lemma distinct_keys_bound (ks seen : list string) :
  NoDup ks → (∀ k, k ∈ ks → k ∈ seen) →
  length ks ≤ length (remove_dups seen).
Proof.
  intros Hnd Hsub. apply submseteq_length, NoDup_submseteq; [done|].
  intros k Hk. by apply elem_of_remove_dups, Hsub.
Qed.

Lemma remove_dups_cons_length (o : string) seen :
  length (remove_dups seen) ≤ length (remove_dups (o :: seen)).
Proof.
  apply distinct_keys_bound; [apply NoDup_remove_dups|].
  intros k Hk. right. by apply elem_of_remove_dups.
Qed.

Lemma remove_key_keys o pre : ∀ ks,
  List.map key pre = List.map JStr ks →
  List.map key (methodCache.remove_key (JStr o) pre)
  = List.map JStr (List.filter (fun k => negb (String.eqb k o)) ks).
Proof.
  unfold methodCache.remove_key.
  induction pre as [|x pre IH]; intros [|k ks] Heq; try done.
  cbn in Heq. injection Heq as Hx Hrest. cbn [List.filter]. rewrite Hx. cbn.
  destruct (String.eqb k o); cbn; [by apply IH|].
  by rewrite Hx, (IH ks Hrest).
Qed.

(** Putting an entry for another key in front leaves the entry behind
    entries for distinct keys seen. *)
Lemma holds_entry_behind e seen es s o x :
  key e = JStr s → key x = JStr o → o ≠ s →
  holds_entry e seen es →
  holds_entry e (o :: seen) (x :: methodCache.remove_key (JStr o) es).
Proof.
  intros Hk Hx Ho (pre & post & ks & -> & Hkeys & Hnd & Hsub & Hpre).
  exists (x :: methodCache.remove_key (JStr o) pre),
         (methodCache.remove_key (JStr o) post),
         (o :: List.filter (fun k => negb (String.eqb k o)) ks).
  split_and!.
  - unfold methodCache.remove_key. rewrite List.filter_app. cbn. rewrite Hk. cbn.
    assert (s ≠ o) as Hso by congruence.
    by rewrite (proj2 (String.eqb_neq s o) Hso).
  - cbn [List.map]. rewrite Hx. f_equal. by apply remove_key_keys.
  - constructor.
    + intros Hin. apply list_elem_of_In, List.filter_In in Hin as [_ Hin].
      by rewrite String.eqb_refl in Hin.
    + by apply NoDup_ListNoDup, List.NoDup_filter, NoDup_ListNoDup.
  - intros k [->|Hin]%elem_of_cons; [left|right].
    apply list_elem_of_In, List.filter_In in Hin as [Hin _].
    by apply Hsub, list_elem_of_In.
  - constructor.
    + rewrite Hx, Hk. by apply JStr_eqb_neq.
    + unfold methodCache.remove_key. apply List.Forall_forall. intros y Hy.
      apply List.filter_In in Hy as [Hy _].
      rewrite List.Forall_forall in Hpre. by apply Hpre.
Qed.

(** Eviction spares an entry that is behind entries for fewer distinct
    keys than the bucket holds. *)
Lemma holds_entry_evict e seen es (cap : Z) :
  (Z.of_nat (length (remove_dups seen)) < cap)%Z →
  holds_entry e seen es →
  holds_entry e seen
    (if (cap <? Z.of_nat (length es))%Z then removelast es else es).
Proof.
  intros Hj Hh. destruct (cap <? Z.of_nat (length es))%Z eqn:Hlt; [|done].
  apply Z.ltb_lt in Hlt. destruct Hh as (pre & post & ks & -> & Hkeys & Hnd & Hsub & Hpre).
  pose proof (distinct_keys_bound ks seen Hnd Hsub) as Hbound.
  assert (length pre = length ks) as Hlen
    by (by rewrite <- (length_map key pre), Hkeys, length_map).
  rewrite length_app in Hlt. cbn in Hlt.
  destruct post as [|y post]; [cbn in Hlt; lia|].
  exists pre, (removelast (y :: post)), ks. split; [|done].
  rewrite removelast_app by done. done.
Qed.

(** A call for another key leaves the entry in reach, behind the keys
    seen so far and that key, and makes no remote invocation for the
    key. *)
Lemma other_call_step method s o e cap age seen d :
  key e = JStr s → o ≠ s → cache_holds method e cap age seen d →
  let d' := exec (cacheCall method (JStr o)) d in
  cache_holds method e cap age (o :: seen) d' ∧
  asteroid d' = asteroid d ∧ now d' = now d ∧
  invocations_for method s (trace d') = invocations_for method s (trace d).
Proof.
  intros Hk Ho (b & Hb & <- & <- & Hh). cbv zeta.
  unfold exec. rewrite cacheCall_run. cbv zeta. unfold exec, eval.
  assert ((Z.of_nat (length (remove_dups (o :: seen))) < capacity b)%Z →
          holds_entry e seen (entries b)) as Hh'.
  { intros Hj. apply Hh. pose proof (remove_dups_cons_length o seen). lia. }
  assert (∀ x, key x = JStr o →
            (Z.of_nat (length (remove_dups (o :: seen))) < capacity b)%Z →
            holds_entry e (o :: seen)
              (let es := x :: methodCache.remove_key (JStr o) (entries b) in
               if (capacity b <? Z.of_nat (length es))%Z then removelast es else es))
    as Hput.
  { intros x Hx Hj. cbv zeta. apply holds_entry_evict; [done|].
    apply (holds_entry_behind e seen (entries b) s o x); try done. by apply Hh'. }
  destruct (methodCache.find_entry (JStr o) (entries b)) as [x|] eqn:Hf.
  - destruct (methodCache.expired b (now d) x) eqn:Hx.
    + rewrite (call_stale d method b x (JStr o) Hb Hf Hx). proj_simpl.
      rewrite invocations_for_outcome_log, invocations_for_other by done.
      repeat split; try done.
      eexists. split; [apply lookup_insert_eq|]. proj_simpl. repeat split; try done.
      intros Hj. by apply Hput.
    + rewrite (call_hit d method b x (JStr o) Hb Hf Hx). proj_simpl.
      rewrite invocations_for_outcome_log.
      repeat split; try done.
      eexists. split; [apply lookup_insert_eq|]. proj_simpl. repeat split; try done.
      intros Hj. apply (holds_entry_behind e seen (entries b) s o x); try done.
      * apply JsVal_eqb_JStr. unfold methodCache.find_entry in Hf.
        by apply List.find_some in Hf as [_ Hf].
      * by apply Hh'.
  - rewrite (call_miss d method b (JStr o) Hb Hf). proj_simpl.
    rewrite invocations_for_outcome_log, invocations_for_other by done.
    repeat split; try done.
    eexists. split; [apply lookup_insert_eq|]. proj_simpl. repeat split; try done.
    intros Hj. by apply Hput.
Qed.

(** A call for another method touches neither the bucket of the method
    nor the count of its invocations. *)
Lemma other_method_step method s name k e cap age seen d :
  name ≠ method → cache_holds method e cap age seen d →
  let d' := exec (cacheCall name k) d in
  cache_holds method e cap age seen d' ∧
  asteroid d' = asteroid d ∧ now d' = now d ∧
  invocations_for method s (trace d') = invocations_for method s (trace d).
Proof.
  intros Hn (b & Hb & <- & <- & Hh). cbv zeta.
  unfold exec. rewrite cacheCall_run. cbv zeta. unfold exec, eval.
  destruct (buckets d !! name) as [b'|] eqn:Hb'.
  - destruct (methodCache.find_entry k (entries b')) as [x|] eqn:Hf;
      [destruct (methodCache.expired b' (now d) x) eqn:Hx|].
    + rewrite (call_stale d name b' x k Hb' Hf Hx). proj_simpl.
      rewrite invocations_for_outcome_log, invocations_for_other_method by done.
      repeat split; try done.
      exists b. split; [proj_simpl; by rewrite lookup_insert_ne|done].
    + rewrite (call_hit d name b' x k Hb' Hf Hx). proj_simpl.
      rewrite invocations_for_outcome_log.
      repeat split; try done.
      exists b. split; [proj_simpl; by rewrite lookup_insert_ne|done].
    + rewrite (call_miss d name b' k Hb' Hf). proj_simpl.
      rewrite invocations_for_outcome_log, invocations_for_other_method by done.
      repeat split; try done.
      exists b. split; [proj_simpl; by rewrite lookup_insert_ne|done].
  - rewrite (call_unregistered d name k Hb'). proj_simpl.
    rewrite invocations_for_outcome_log, invocations_for_other_method by done.
    repeat split; try done.
    by exists b.
Qed.

(** A call for the key while its entry is in reach and young enough is
    answered with the stored promise and makes no remote invocation. *)
Lemma same_call_step method s e cap age seen d :
  key e = JStr s → (Z.of_nat (length (remove_dups seen)) < cap)%Z →
  (now d - insertedAt e ≤ age)%Z →
  cache_holds method e cap age seen d →
  let d' := exec (cacheCall method (JStr s)) d in
  eval (cacheCall method (JStr s)) d = result (asteroid d) (promise e) ∧
  cache_holds method e cap age [] d' ∧
  asteroid d' = asteroid d ∧ now d' = now d ∧
  invocations_for method s (trace d') = invocations_for method s (trace d).
Proof.
  intros Hk Hj Hage (b & Hb & <- & <- & Hh). cbv zeta.
  pose proof (holds_entry_find e seen (entries b) s Hk (Hh Hj)) as Hf.
  assert (methodCache.expired b (now d) e = false) as Hx.
  { unfold methodCache.expired. apply Z.ltb_ge. lia. }
  unfold exec, eval. rewrite cacheCall_run. cbv zeta. unfold exec, eval.
  rewrite (call_hit d method b e (JStr s) Hb Hf Hx). proj_simpl.
  rewrite invocations_for_outcome_log.
  repeat split; try done.
  eexists. split; [apply lookup_insert_eq|]. proj_simpl. repeat split; try done.
  intros _. exists [], (methodCache.remove_key (JStr s) (entries b)), [].
  split_and!;
    first [done | apply NoDup_nil_2 | by intros k Hk%elem_of_nil | constructor].
Qed.

Lemma cache_holds_advance method e cap age seen d dt :
  cache_holds method e cap age seen d →
  cache_holds method e cap age seen (exec (advance dt) d).
Proof. done. Qed.

(** Later calls within reach are all answered with the stored promise,
    and none of them invokes the remote method for the key. *)
Lemma later_calls_served method s e cap age a later : ∀ d seen el,
  key e = JStr s →
  cache_holds method e cap age seen d →
  asteroid d = a → now d = (insertedAt e + el)%Z →
  others_differ method s later → in_reach cap age seen el later →
  let m := sequence (List.map (later_call method s) later) in
  invocations_for method s (trace (exec m d)) = invocations_for method s (trace d) ∧
  omap (fun o => o) (eval m d)
  = replicate (same_key_calls later) (result a (promise e)).
Proof.
  induction later as [|c later IH]; intros d seen el Hk Hc Ha Hnow Hother Hreach;
    cbv zeta; [done|].
  inversion Hother as [|? ? Hc1 Hrest]; subst.
  cbn [in_reach] in Hreach.
  cbn [List.map sequence]. rewrite !exec_bind, !eval_bind, exec_ret, eval_ret.
  destruct c as [dt|o dt|name k dt]; cbn [later_call];
    rewrite !exec_bind, !eval_bind, ?exec_ret, ?eval_ret.
  - destruct Hreach as (Hj & Hage & Hreach).
    set (d1 := exec (advance dt) d).
    destruct (same_call_step method s e cap age seen d1 Hk Hj) as (Hres & Hc2 & Ha2 & Hn2 & Hi2).
    { subst d1. cbn. lia. }
    { by apply cache_holds_advance. }
    assert (now (exec (cacheCall method (JStr s)) d1) = (insertedAt e + (el + dt))%Z)
      as Hn3 by (rewrite Hn2; subst d1; cbn; lia).
    destruct (IH (exec (cacheCall method (JStr s)) d1) [] (el + dt)%Z Hk Hc2 Ha2 Hn3
                Hrest Hreach) as (Hi & Hv).
    cbv zeta in Hi, Hv. rewrite Hi, Hi2. split; [done|].
    cbn [omap]. unfold same_key_calls. cbn [List.filter is_same length replicate].
    rewrite Hres. cbn. f_equal. exact Hv.
  - set (d1 := exec (advance dt) d).
    destruct (other_call_step method s o e cap age seen d1 Hk Hc1) as (Hc2 & Ha2 & Hn2 & Hi2).
    { by apply cache_holds_advance. }
    assert (now (exec (cacheCall method (JStr o)) d1) = (insertedAt e + (el + dt))%Z)
      as Hn3 by (rewrite Hn2; subst d1; cbn; lia).
    destruct (IH (exec (cacheCall method (JStr o)) d1) (o :: seen) (el + dt)%Z Hk Hc2 Ha2 Hn3
                Hrest Hreach) as (Hi & Hv).
    cbv zeta in Hi, Hv. rewrite Hi, Hi2. split; [done|].
    cbn [omap]. unfold same_key_calls. cbn [List.filter is_same]. exact Hv.
  - set (d1 := exec (advance dt) d).
    destruct (other_method_step method s name k e cap age seen d1 Hc1) as (Hc2 & Ha2 & Hn2 & Hi2).
    { by apply cache_holds_advance. }
    assert (now (exec (cacheCall name k) d1) = (insertedAt e + (el + dt))%Z)
      as Hn3 by (rewrite Hn2; subst d1; cbn; lia).
    destruct (IH (exec (cacheCall name k) d1) seen (el + dt)%Z Hk Hc2 Ha2 Hn3
                Hrest Hreach) as (Hi & Hv).
    cbv zeta in Hi, Hv. rewrite Hi, Hi2. split; [done|].
    cbn [omap]. unfold same_key_calls. cbn [List.filter is_same]. exact Hv.
Qed.

(** C3, as amended.  Take a method with a registered cache bucket and
    a string key without a live entry in it, and a run of cache calls
    that starts with [cacheCall(method, key)] and goes on with cache
    calls for the same key, for other string keys of the method and for
    other methods.  If every later call for the key comes no later than
    the bucket's [maxAgeMs] after the first and after calls for fewer
    than [capacity] distinct other keys of the method since the call for
    the key before it, then the run makes exactly one remote invocation
    for the key and every caller for the key receives the settlement of
    that invocation, whether or not it has settled; with room for at
    least one entry, the promise of that invocation is in the bucket as
    soon as the first call returns. *)
Theorem calls_for_key_share_one_invocation d method s b later :
  buckets d !! method = Some b →
  uncached b (now d) (JStr s) →
  others_differ method s later →
  in_reach (capacity b) (maxAgeMs b) [] 0 later →
  invocations_for method s (trace (exec (calls_for_key method s later) d))
  = S (invocations_for method s (trace d)) ∧
  eval (calls_for_key method s later) d
  = replicate (S (same_key_calls later))
      (result (asteroid d) (methodCache.invocations (trace d))) ∧
  ((0 < capacity b)%Z →
   ∃ b1, buckets (exec (cacheCall method (JStr s)) d) !! method = Some b1 ∧
         methodCache.find_entry (JStr s) (entries b1)
         = Some (mkEntry (JStr s) (methodCache.invocations (trace d)) (now d))).
Proof.
  intros Hb Hu Hother Hreach.
  set (e := mkEntry (JStr s) (methodCache.invocations (trace d)) (now d)).
  unfold calls_for_key. rewrite !exec_bind, !eval_bind, exec_ret, eval_ret.
  set (d1 := exec (cacheCall method (JStr s)) d).
  assert (eval (cacheCall method (JStr s)) d
          = result (asteroid d) (methodCache.invocations (trace d))
          ∧ cache_holds method e (capacity b) (maxAgeMs b) [] d1
          ∧ asteroid d1 = asteroid d ∧ now d1 = now d
          ∧ invocations_for method s (trace d1)
            = S (invocations_for method s (trace d)))
    as (Hres & Hc & Ha & Hn & Hi).
  { subst d1. unfold exec, eval. rewrite cacheCall_run. cbv zeta. unfold exec, eval.
    rewrite (call_uncached d method b (JStr s) Hb Hu). proj_simpl.
    rewrite invocations_for_outcome_log, invocations_for_same.
    repeat split; try done.
    eexists. split; [apply lookup_insert_eq|]. proj_simpl. repeat split; try done.
    intros Hcap. apply holds_entry_evict; [done|].
    exists [], (methodCache.remove_key (JStr s) (entries b)), [].
    split_and!;
    first [done | apply NoDup_nil_2 | by intros k Hk%elem_of_nil | constructor]. }
  assert (now d1 = (insertedAt e + 0)%Z) as Hn0 by (rewrite Hn; cbn; lia).
  destruct (later_calls_served method s e (capacity b) (maxAgeMs b) (asteroid d)
              later d1 [] 0%Z eq_refl Hc Ha Hn0 Hother Hreach) as (Hi2 & Hv).
  cbv zeta in Hi2, Hv. rewrite Hi2, Hi. split; [done|]. split.
  - rewrite Hres, Hv. done.
  - intros Hcap. destruct Hc as (b1 & Hb1 & _ & _ & Hh). exists b1. split; [done|].
    apply (holds_entry_find e []); [done|]. apply Hh. cbn. lia.
Qed.

Lemma calls_for_key_share_one_invocation_witness :
  let d := connected0 (willing (JStr "GENERAL")) in
  let later := [OtherKey "random" 1000; SameKey 2000;
                OtherMethod "getRoomNameById" (JStr "GENERAL") 5;
                OtherKey "dev" 10; OtherKey "dev" 0; SameKey 296985]%Z in
  invocations_for "getRoomIdByNameOrId" "general"
    (trace (exec (calls_for_key "getRoomIdByNameOrId" "general" later) d)) = 1 ∧
  eval (calls_for_key "getRoomIdByNameOrId" "general" later) d
  = [Fulfilled (JStr "GENERAL"); Fulfilled (JStr "GENERAL");
     Fulfilled (JStr "GENERAL")].
Proof.
  intros d later.
  destruct (calls_for_key_share_one_invocation d "getRoomIdByNameOrId" "general"
              (mkBucket 10 300000 []) later) as (Hi & Hv & _).
  - vm_compute. reflexivity.
  - intros x Hx. discriminate Hx.
  - repeat constructor; done.
  - vm_compute. repeat split; discriminate.
  - split; [rewrite Hi|rewrite Hv]; vm_compute; reflexivity.
Defined.

(** C3 as stated fails, in three ways.  The server below never answers,
    so every call is issued before the first settles.  With the default
    bucket, a second call for the key 300001 ms after the first finds
    the entry expired and invokes the remote method again, handing out
    a promise of its own.  With [ROOM_CACHE_SIZE=1], a call for another
    key in between evicts the entry, and with [ROOM_CACHE_SIZE=0]
    nothing is kept at all: the next call for the key invokes the
    remote method again. *)
Lemma calls_for_key_counterexample :
  let method := "getRoomIdByNameOrId" in
  let sized size :=
    exec (connect (mkEnv None (Some size) None None None) silent
                  (mkOptions None None None) false)
         (boot (silent "" false)) in
  (∀ host tls n, result (silent host tls) n = Pending) ∧
  is_Some (buckets (connected0 silent) !! method) ∧
  is_Some (buckets (sized 1%Z) !! method) ∧
  is_Some (buckets (sized 0%Z) !! method) ∧
  invocations_for method "general"
    (trace (exec (calls_for_key method "general" [SameKey 300001])
                 (connected0 silent))) = 2 ∧
  eval (methodCache.call method (JStr "general");;
        advance 300001;;
        methodCache.call method (JStr "general")) (connected0 silent) = 1 ∧
  invocations_for method "general"
    (trace (exec (calls_for_key method "general" [OtherKey "random" 0; SameKey 0])
                 (sized 1%Z))) = 2 ∧
  invocations_for method "general"
    (trace (exec (calls_for_key method "general" [SameKey 0]) (sized 0%Z))) = 2.
Proof.
  cbv zeta. split_and!.
  - done.
  - apply (bool_decide_unpack _). vm_compute. exact I.
  - apply (bool_decide_unpack _). vm_compute. exact I.
  - apply (bool_decide_unpack _). vm_compute. exact I.
  - vm_compute. reflexivity.
  - vm_compute. reflexivity.
  - vm_compute. reflexivity.
  - vm_compute. reflexivity.
Qed.

(** ** Connecting *)

Lemma run_app l1 : ∀ l2 c d,
  run c (l1 ++ l2) d = bind (run c l1) (fun c' => run c' l2) d.
Proof.
  induction l1 as [|s l1 IH]; intros l2 c d.
  - cbn. unfold bind, ret. done.
  - cbn [run app]. unfold bind in *. destruct (deliver c s d) as [d1 c1].
    apply IH.
Qed.

Lemma emitted_app t u : emitted (t ++ u) = emitted t ++ emitted u.
Proof. apply omap_app. Qed.

Lemma connectCallbacks_app t u :
  connectCallbacks (t ++ u) = connectCallbacks t ++ connectCallbacks u.
Proof. apply omap_app. Qed.

(** Inert stimuli change nothing but the trace, to which they add
    neither a ['connected'] event nor a callback invocation. *)
Lemma run_inert l : ∀ c d,
  Forall (inert c) l →
  eval (run c l) d = c ∧
  asteroid (exec (run c l) d) = asteroid d ∧
  ∃ suffix,
    trace (exec (run c l) d) = trace d ++ suffix ∧
    (connected ∉ emitted suffix) ∧
    connectCallbacks suffix = [].
Proof.
  induction l as [|s l IH]; intros c d Hl.
  - split_and!; [done..|]. exists []. rewrite app_nil_r. split_and!; [done| |done].
    apply not_elem_of_nil.
  - apply Forall_cons in Hl as [Hs Hl]. cbn [run].
    rewrite exec_bind, eval_bind.
    assert (eval (deliver c s) d = c ∧
            asteroid (exec (deliver c s) d) = asteroid d ∧
            ∃ e, trace (exec (deliver c s) d) = trace d ++ e ∧
                 (connected ∉ emitted e) ∧ connectCallbacks e = [])
      as (-> & Hast & e & He & Hem & Hcb).
    { destruct Hs as [->|[-> Harm]].
      - split_and!; [done..|]. exists [EEmit reconnected].
        split_and!; [done| |done]. cbn. by intros [=]%list_elem_of_singleton.
      - unfold deliver. destruct (rejectionTimeout c); [done|..];
          (split_and!; [done..|]; exists []; rewrite app_nil_r;
           split_and!; [done|apply not_elem_of_nil|done]). }
    destruct (IH c (exec (deliver c s) d) Hl) as (Hc & Hast' & suffix & Ht & Hem' & Hcb').
    split_and!; [done|congruence|].
    exists (e ++ suffix). rewrite Ht, He, <- app_assoc. split_and!; [done| |].
    + rewrite emitted_app. by intros [?|?]%elem_of_app.
    + by rewrite connectCallbacks_app, Hcb, Hcb'.
Qed.

Lemma since_suffix d d' suffix :
  trace d' = trace d ++ suffix → since d d' = suffix.
Proof. intros H. unfold since. rewrite H. apply drop_app_length. Qed.

Lemma connect_initial env Asteroid options cb d :
  callback (eval (connect env Asteroid options cb) d) = cb ∧
  rejectionTimeout (eval (connect env Asteroid options cb) d) = Armed ∧
  onceConnected (eval (connect env Asteroid options cb) d) = true ∧
  awaitable (eval (connect env Asteroid options cb) d) = Pending ∧
  ∃ entry, trace (exec (connect env Asteroid options cb) d) = trace d ++ [ELog entry].
Proof.
  unfold connect, setupMethodCache, methodCache.use, methodCache.create.
  eff_simpl. split_and!; [done..|]. by eexists.
Qed.

(** The timer fires before the transport has connected. *)
Lemma run_timeout_first c d pre post :
  rejectionTimeout c = Armed →
  Forall (fun s => s = AsteroidReconnected) pre →
  AsteroidConnected ∉ post →
  ∃ suffix,
    trace (exec (run c (pre ++ TimeoutElapsed :: post)) d) = trace d ++ suffix ∧
    (connected ∉ emitted suffix) ∧
    connectCallbacks suffix = (if callback c then [Some timeoutError] else []) ∧
    awaitable (eval (run c (pre ++ TimeoutElapsed :: post)) d)
    = (if callback c then awaitable c else reject timeoutError (awaitable c)) ∧
    rejectionTimeout (eval (run c (pre ++ TimeoutElapsed :: post)) d) = Fired.
Proof.
  intros Harm Hpre Hpost.
  assert (Forall (inert c) pre) as Hpre'
    by (eapply Forall_impl; [exact Hpre|]; by left).
  destruct (run_inert pre c d Hpre') as (Hc & _ & s1 & Ht1 & Hem1 & Hcb1).
  unfold exec, eval in *. rewrite run_app. unfold bind.
  destruct (run c pre d) as [d1 c1]. cbn [fst snd] in *. subst c1.
  cbn [run]. unfold bind.
  set (c2 := if callback c
             then mkConnection (config c) true Fired (onceConnected c) (awaitable c)
             else mkConnection (config c) false Fired (onceConnected c)
                               (reject timeoutError (awaitable c))).
  assert (∃ e, deliver c TimeoutElapsed d1
               = (with_trace d1 (trace d1 ++ e), c2) ∧
               emitted e = [] ∧
               connectCallbacks e = if callback c then [Some timeoutError] else [])
    as (e & -> & Hem2 & Hcb2).
  { unfold deliver. rewrite Harm. subst c2. destruct (callback c); eff_simpl.
    - eexists [_; _]. rewrite <- app_assoc. done.
    - eexists [_]. done. }
  assert (Forall (inert c2) post) as Hpost'.
  { apply Forall_forall. intros s Hs. destruct s.
    - by destruct Hpost.
    - by left.
    - right. split; [done|]. subst c2. by destruct (callback c). }
  destruct (run_inert post c2 (with_trace d1 (trace d1 ++ e)) Hpost')
    as (Hc3 & _ & s3 & Ht3 & Hem3 & Hcb3).
  unfold exec, eval in *. destruct (run c2 post _) as [d3 c3].
  cbn [fst snd] in *. subst c3.
  exists (s1 ++ e ++ s3). rewrite Ht3. cbn [trace with_trace]. rewrite Ht1.
  split_and!.
  - by rewrite <- !app_assoc.
  - rewrite !emitted_app, Hem2. cbn. by intros [?|?]%elem_of_app.
  - rewrite !connectCallbacks_app, Hcb1, Hcb2, Hcb3. by rewrite app_nil_r.
  - subst c2. by destruct (callback c).
  - subst c2. by destruct (callback c).
Qed.

(** The transport connects while the listener of this call is still
    registered. *)
Lemma run_connected_first c d pre :
  onceConnected c = true →
  Forall (fun s => s = AsteroidReconnected) pre →
  ∃ suffix,
    trace (exec (run c (pre ++ [AsteroidConnected])) d) = trace d ++ suffix ∧
    connected ∈ emitted suffix ∧
    connectCallbacks suffix = (if callback c then [None] else []) ∧
    awaitable (eval (run c (pre ++ [AsteroidConnected])) d)
    = resolve (asteroid d) (awaitable c) ∧
    rejectionTimeout (eval (run c (pre ++ [AsteroidConnected])) d)
    = clearTimeout (rejectionTimeout c).
Proof.
  intros Honce Hpre.
  assert (Forall (inert c) pre) as Hpre'
    by (eapply Forall_impl; [exact Hpre|]; by left).
  destruct (run_inert pre c d Hpre') as (Hc & Hast & s1 & Ht1 & Hem1 & Hcb1).
  unfold exec, eval in *. rewrite run_app. unfold bind.
  destruct (run c pre d) as [d1 c1]. cbn [fst snd] in *. subst c1.
  cbn [run]. unfold deliver. rewrite Honce.
  destruct (callback c); eff_simpl; rewrite Ht1, Hast.
  - exists (s1 ++ [EEmit connected; ELog (LogInfo "[connect] Connected" None);
                    EConnectCallback None]).
    rewrite <- !app_assoc. split_and!; [done| |by rewrite connectCallbacks_app, Hcb1|done..].
    rewrite emitted_app. apply elem_of_app. right. cbn. left.
  - exists (s1 ++ [EEmit connected; ELog (LogInfo "[connect] Connected" None)]).
    rewrite <- !app_assoc. split_and!; [done| |by rewrite connectCallbacks_app, Hcb1|done..].
    rewrite emitted_app. apply elem_of_app. right. cbn. left.
Qed.

Lemma run_no_callback l : ∀ c d,
  callback c = false →
  ∃ suffix,
    trace (exec (run c l) d) = trace d ++ suffix ∧ connectCallbacks suffix = [].
Proof.
  induction l as [|s l IH]; intros c d Hcb.
  - exists []. by rewrite app_nil_r.
  - cbn [run]. rewrite exec_bind.
    assert (callback (eval (deliver c s) d) = false ∧
            ∃ e, trace (exec (deliver c s) d) = trace d ++ e ∧ connectCallbacks e = [])
      as (Hcb' & e & He & Hcbe).
    { unfold deliver. destruct s.
      - destruct (onceConnected c); rewrite ?Hcb; eff_simpl.
        + split; [done|]. eexists [_; _]. by rewrite <- app_assoc.
        + split; [done|]. by eexists [_].
      - eff_simpl. split; [done|]. by eexists [_].
      - destruct (rejectionTimeout c); rewrite ?Hcb; eff_simpl.
        + split; [done|]. by eexists [_].
        + split; [done|]. exists []. by rewrite app_nil_r.
        + split; [done|]. exists []. by rewrite app_nil_r. }
    destruct (IH _ (exec (deliver c s) d) Hcb') as (suffix & Ht & Hs).
    exists (e ++ suffix). rewrite Ht, He, <- app_assoc. split; [done|].
    by rewrite connectCallbacks_app, Hcbe, Hs.
Qed.

Lemma only_reconnected (l : list Stimulus) :
  AsteroidConnected ∉ l → TimeoutElapsed ∉ l →
  Forall (fun s => s = AsteroidReconnected) l.
Proof.
  intros Hc Ht. apply Forall_forall. intros s Hs.
  destruct s; [by destruct Hc|done|by destruct Ht].
Qed.

(** C4, as amended.  Without a callback only the returned promise is
    ever used.  With a callback, a timeout that comes first invokes the
    callback with the timeout error and leaves the promise pending,
    whereas a connection that comes first invokes the callback without
    an error and resolves the promise as well. *)
Theorem connect_outcome_channels env Asteroid options d :
  (∀ stimuli,
     connectCallbacks
       (since d (exec (connect_then env Asteroid options false stimuli) d)) = []) ∧
  (∀ pre post,
     Forall (fun s => s = AsteroidReconnected) pre →
     AsteroidConnected ∉ post →
     connectCallbacks
       (since d (exec (connect_then env Asteroid options true
                         (pre ++ TimeoutElapsed :: post)) d))
     = [Some timeoutError] ∧
     awaitable (eval (connect_then env Asteroid options true
                        (pre ++ TimeoutElapsed :: post)) d) = Pending) ∧
  (∀ pre,
     Forall (fun s => s = AsteroidReconnected) pre →
     connectCallbacks
       (since d (exec (connect_then env Asteroid options true
                         (pre ++ [AsteroidConnected])) d))
     = [None] ∧
     awaitable (eval (connect_then env Asteroid options true
                        (pre ++ [AsteroidConnected])) d)
     = Fulfilled (asteroid (exec (connect env Asteroid options true) d))).
Proof.
  split_and!.
  - intros stimuli. unfold connect_then. rewrite exec_bind.
    destruct (connect_initial env Asteroid options false d)
      as (Hcb & _ & _ & _ & entry & Ht0).
    destruct (run_no_callback stimuli _ (exec (connect env Asteroid options false) d) Hcb)
      as (suffix & Ht & Hs).
    rewrite (since_suffix d _ ([ELog entry] ++ suffix)).
    + by rewrite connectCallbacks_app, Hs.
    + by rewrite Ht, Ht0, <- app_assoc.
  - intros pre post Hpre Hpost. unfold connect_then. rewrite exec_bind, eval_bind.
    destruct (connect_initial env Asteroid options true d)
      as (Hcb & Harm & _ & Haw & entry & Ht0).
    destruct (run_timeout_first _ (exec (connect env Asteroid options true) d)
                pre post Harm Hpre Hpost) as (suffix & Ht & _ & Hs & Ha & _).
    rewrite Hcb in Hs, Ha. split; [|by rewrite Ha, Haw].
    rewrite (since_suffix d _ ([ELog entry] ++ suffix)).
    + by rewrite connectCallbacks_app, Hs.
    + by rewrite Ht, Ht0, <- app_assoc.
  - intros pre Hpre. unfold connect_then. rewrite exec_bind, eval_bind.
    destruct (connect_initial env Asteroid options true d)
      as (Hcb & _ & Honce & Haw & entry & Ht0).
    destruct (run_connected_first _ (exec (connect env Asteroid options true) d)
                pre Honce Hpre) as (suffix & Ht & _ & Hs & Ha & _).
    rewrite Hcb in Hs. split; [|by rewrite Ha, Haw].
    rewrite (since_suffix d _ ([ELog entry] ++ suffix)).
    + by rewrite connectCallbacks_app, Hs.
    + by rewrite Ht, Ht0, <- app_assoc.
Qed.

Lemma connect_outcome_channels_witness :
  (connectCallbacks
     (since (boot (silent "" false))
        (exec (connect_then env0 silent (mkOptions None None None) true
                 ([] ++ TimeoutElapsed :: [AsteroidReconnected]))
              (boot (silent "" false))))
   = [Some timeoutError] ∧
   awaitable (eval (connect_then env0 silent (mkOptions None None None) true
                      ([] ++ TimeoutElapsed :: [AsteroidReconnected]))
                   (boot (silent "" false))) = Pending) ∧
  (connectCallbacks
     (since (boot (silent "" false))
        (exec (connect_then env0 silent (mkOptions None None None) true
                 ([AsteroidReconnected] ++ [AsteroidConnected]))
              (boot (silent "" false))))
   = [None] ∧
   awaitable (eval (connect_then env0 silent (mkOptions None None None) true
                      ([AsteroidReconnected] ++ [AsteroidConnected]))
                   (boot (silent "" false)))
   = Fulfilled (asteroid (exec (connect env0 silent (mkOptions None None None) true)
                               (boot (silent "" false))))).
Proof.
  destruct (connect_outcome_channels env0 silent (mkOptions None None None)
              (boot (silent "" false))) as (_ & Htimeout & Hconnected).
  split.
  - apply (Htimeout [] [AsteroidReconnected]); [constructor|].
    by intros [=]%list_elem_of_singleton.
  - apply (Hconnected [AsteroidReconnected]). by repeat constructor.
Defined.

(** C4 as stated fails: with a callback and a transport that connects
    in time, the callback is invoked and the returned promise settles. *)
Lemma connect_outcome_channels_counterexample :
  connectCallbacks
    (trace (exec (connect_then env0 silent (mkOptions None None None) true
                    [AsteroidConnected])
                 (boot (silent "" false))))
  = [None] ∧
  awaitable (eval (connect_then env0 silent (mkOptions None None None) true
                     [AsteroidConnected])
                  (boot (silent "" false)))
  = Fulfilled (silent "localhost:3000" false).
Proof. split; vm_compute; reflexivity. Qed.

(** A settled promise stays as it is. *)
Lemma run_settled l : ∀ c d,
  awaitable c ≠ Pending → awaitable (eval (run c l) d) = awaitable c.
Proof.
  induction l as [|s l IH]; intros c d Hset; [done|].
  cbn [run]. rewrite eval_bind.
  assert (awaitable (eval (deliver c s) d) = awaitable c) as Hstep.
  { unfold deliver. destruct s.
    - destruct (onceConnected c); [|done].
      destruct (callback c); eff_simpl; by destruct (awaitable c).
    - done.
    - destruct (rejectionTimeout c); [|done..].
      destruct (callback c); eff_simpl; [done|]. by destruct (awaitable c). }
  rewrite IH; [done|]. by rewrite Hstep.
Qed.

(** ** Subscribing *)

Lemma filter_is_subscribe_log t entry :
  List.filter is_subscribe (t ++ [ELog entry]) = List.filter is_subscribe t.
Proof. rewrite List.filter_app. cbn. apply app_nil_r. Qed.

(** C9.  [subscribe] appends the new subscription to the active set
    whatever becomes of its readiness, and the promise it returns never
    rejects: it resolves with the subscription once the transport reports
    it ready and stays pending otherwise, in particular when the
    readiness promise rejects. *)
Theorem subscribe_never_rejects topic roomId d :
  subscriptions (exec (subscribe topic roomId) d)
  = subscriptions d
    ++ [mkSubscription (length (List.filter is_subscribe (trace d))) topic roomId] ∧
  (∀ e, eval (subscribe topic roomId) d ≠ Rejected e) ∧
  (∀ e,
     ready (asteroid d)
           (mkSubscription (length (List.filter is_subscribe (trace d))) topic roomId)
     = Rejected e →
     eval (subscribe topic roomId) d = Pending) ∧
  (∀ i,
     ready (asteroid d)
           (mkSubscription (length (List.filter is_subscribe (trace d))) topic roomId)
     = Fulfilled i →
     eval (subscribe topic roomId) d
     = Fulfilled (mkSubscription (length (List.filter is_subscribe (trace d)))
                                 topic roomId)).
Proof.
  unfold subscribe, asteroid_subscribe, push, promise_then. eff_simpl.
  rewrite filter_is_subscribe_log.
  destruct (ready (asteroid d) _) as [|i|e]; cbn; split_and!; try done.
Qed.

Lemma subscribe_never_rejects_witness :
  eval (subscribe "stream-room-messages" "GENERAL")
       (connected0 (failing (mkError "no such stream"))) = Pending ∧
  subscriptions (exec (subscribe "stream-room-messages" "GENERAL")
                      (connected0 (failing (mkError "no such stream"))))
  = [sub0].
Proof.
  destruct (subscribe_never_rejects "stream-room-messages" "GENERAL"
              (connected0 (failing (mkError "no such stream"))))
    as (Hs & _ & Hrej & _).
  split; [|exact Hs].
  apply (Hrej (mkError "no such stream")). reflexivity.
Defined.

(** ** Reacting to messages *)

Lemma reactToMessages_listener d m :
  messages d = Some m → eval reactToMessages d = Some (onChange m).
Proof. intros Hm. unfold reactToMessages. eff_simpl. by rewrite Hm. Qed.

Lemma not_null a : a ≠ JNull → JsVal_eqb a JNull = false.
Proof. by destruct a. Qed.

(** What the listener does on the records the transport's contract
    allows, and when the query finds nothing: a record whose arguments
    are an array starting with a message gives [(null, args[0],
    args[1])], a record with [null] arguments and a query without
    result each give an error, all through the callback. *)
Lemma onChange_on_contract collection changed d :
  (∀ record others m rest,
     reactiveQuery collection changed = Some (record :: others) →
     args record = JArr (m :: rest) →
     nullish m = false →
     eval (onChange collection changed) d = Normal ∧
     callbacks (since d (exec (onChange collection changed) d))
     = [(None, Some m, Some (default JUndefined (rest !! 0)))]) ∧
  (∀ record others,
     reactiveQuery collection changed = Some (record :: others) →
     args record = JNull →
     eval (onChange collection changed) d = Normal ∧
     callbacks (since d (exec (onChange collection changed) d))
     = [(Some (mkError "Received message without args"), None, None)]) ∧
  (reactiveQuery collection changed = None
   ∨ reactiveQuery collection changed = Some [] →
   eval (onChange collection changed) d = Normal ∧
   callbacks (since d (exec (onChange collection changed) d))
   = [(Some (mkError ("[change] Reactive query at ID " ++ changed
                      ++ " without results")), None, None)]).
Proof.
  unfold onChange, since. split_and!.
  - intros record others m rest -> -> Hm. cbn. rewrite Hm. eff_simpl.
    rewrite <- app_assoc. by rewrite drop_app_length.
  - intros record others -> ->. eff_simpl. by rewrite drop_app_length.
  - intros [-> | ->]; eff_simpl; by rewrite drop_app_length.
Qed.

(** C7 (code defect).  The listener takes only [null] for missing
    arguments and then reads [args[0].rid] for the console before it
    calls the callback.  So for a record whose [args] is not [null] but
    is [undefined], or has [undefined] or [null] as its first element
    (an empty array, for one), the listener throws and the callback is
    not invoked at all: the failure is thrown, not passed on. *)
Theorem onChange_throws_on_malformed_args collection changed d record others :
  reactiveQuery collection changed = Some (record :: others) →
  args record ≠ JNull →
  nullish (args record) || nullish (element (args record) 0) = true →
  onChange collection changed d = (d, Throw typeError).
Proof.
  intros Hq Hnull Hbad. unfold onChange, at_index. rewrite Hq, not_null by done.
  cbn [negb]. destruct (nullish (args record)); [done|].
  cbn in Hbad. by rewrite Hbad.
Qed.

Lemma onChange_throws_on_malformed_args_witness :
  onChange (mkCollection "stream-room-messages"
              (fun i => Some [mkChanged i (JArr [])]))
           "abc" (boot (silent "" false))
  = (boot (silent "" false), Throw typeError) ∧
  onChange (mkCollection "stream-room-messages"
              (fun i => Some [mkChanged i JUndefined]))
           "abc" (boot (silent "" false))
  = (boot (silent "" false), Throw typeError) ∧
  onChange (mkCollection "stream-room-messages"
              (fun i => Some [mkChanged i (JArr [JNull; JStr "edited"])]))
           "abc" (boot (silent "" false))
  = (boot (silent "" false), Throw typeError).
Proof.
  split_and!.
  - apply (onChange_throws_on_malformed_args
             (mkCollection "stream-room-messages"
                (fun i => Some [mkChanged i (JArr [])]))
             "abc" (boot (silent "" false)) (mkChanged "abc" (JArr [])) []);
      [reflexivity|discriminate|reflexivity].
  - apply (onChange_throws_on_malformed_args
             (mkCollection "stream-room-messages"
                (fun i => Some [mkChanged i JUndefined]))
             "abc" (boot (silent "" false)) (mkChanged "abc" JUndefined) []);
      [reflexivity|discriminate|reflexivity].
  - apply (onChange_throws_on_malformed_args
             (mkCollection "stream-room-messages"
                (fun i => Some [mkChanged i (JArr [JNull; JStr "edited"])]))
             "abc" (boot (silent "" false))
             (mkChanged "abc" (JArr [JNull; JStr "edited"])) []);
      [reflexivity|discriminate|reflexivity].
Defined.

(** ** Sending *)

Lemma sendMessage_prepared_calls msgs : ∀ d,
  remoteCalls (trace (exec (sequence (List.map sendMessage_prepared msgs)) d))
  = remoteCalls (trace d)
    ++ List.map (fun m => ("sendMessage", JArr [JMessage m])) msgs.
Proof.
  induction msgs as [|m msgs IH]; intros d.
  - cbn. by rewrite app_nil_r.
  - cbn [List.map sequence]. rewrite !exec_bind, exec_ret, IH.
    unfold sendMessage_prepared at 1.
    destruct (asyncCall_frame "sendMessage" (JMessage m) d) as [_ ->].
    by rewrite <- app_assoc.
Qed.

(** C10, as amended.  With an array and a non-empty room id, each text
    is sent as a message on which [setRoomId(roomId)] was called; with a
    single string or message object the message is sent as constructed,
    the room id not being applied. *)
Theorem sendMessageByRoomId_room_ids roomId d :
  (∀ texts,
     roomId ≠ "" →
     prepareMessages (Many texts) roomId
     = List.map (fun text => setRoomId roomId (new_Message (TextContent text))) texts ∧
     remoteCalls (trace (exec (sendMessageByRoomId (Many texts) roomId) d))
     = remoteCalls (trace d)
       ++ List.map (fun text =>
                      ("sendMessage",
                       JArr [JMessage (setRoomId roomId
                                         (new_Message (TextContent text)))]))
                   texts) ∧
  (∀ content,
     prepareMessages (Single content) roomId = [new_Message content] ∧
     remoteCalls (trace (exec (sendMessageByRoomId (Single content) roomId) d))
     = remoteCalls (trace d)
       ++ [("sendMessage", JArr [JMessage (new_Message content)])]).
Proof.
  split.
  - intros texts Hroom.
    assert (prepareMessages (Many texts) roomId
            = List.map (fun text => setRoomId roomId (new_Message (TextContent text)))
                       texts) as Hprep.
    { unfold prepareMessages, prepareMessage. apply List.map_ext. intros text.
      cbn. apply String.eqb_neq in Hroom. by rewrite Hroom. }
    split; [done|]. unfold sendMessageByRoomId.
    rewrite exec_bind, exec_ret, sendMessage_prepared_calls, Hprep.
    by rewrite List.map_map.
  - intros content. split; [done|]. unfold sendMessageByRoomId.
    by rewrite exec_bind, exec_ret, sendMessage_prepared_calls.
Qed.

Lemma sendMessageByRoomId_room_ids_witness :
  prepareMessages (Many ["hello"; "world"]) "GENERAL"
  = [setRoomId "GENERAL" (new_Message (TextContent "hello"));
     setRoomId "GENERAL" (new_Message (TextContent "world"))] ∧
  prepareMessages (Single (TextContent "hello")) "GENERAL"
  = [new_Message (TextContent "hello")].
Proof.
  destruct (sendMessageByRoomId_room_ids "GENERAL" (connected0 silent))
    as [Hmany Hsingle].
  split.
  - apply (Hmany ["hello"; "world"]). discriminate.
  - apply (Hsingle (TextContent "hello")).
Defined.

(** C10 as stated fails for the empty room id, which [if (roomId)]
    takes for a missing one: [setRoomId] is not called. *)
Lemma sendMessageByRoomId_counterexample :
  prepareMessages (Many ["hello"]) "" = [new_Message (TextContent "hello")] ∧
  prepareMessages (Many ["hello"]) ""
  ≠ [setRoomId "" (new_Message (TextContent "hello"))] ∧
  remoteCalls (trace (exec (sendMessageByRoomId (Many ["hello"]) "")
                           (connected0 silent)))
  = [("sendMessage", JArr [JMessage (new_Message (TextContent "hello"))])].
Proof. split_and!; [reflexivity|discriminate|vm_compute; reflexivity]. Qed.

(** * Further properties *)

(** ** The host of a connection *)

Lemma string_length_append (a b : string) :
  String.length (a +:+ b) = String.length a + String.length b.
Proof.
  induction a as [|c a IH]; [done|].
  change (String c a +:+ b) with (String c (a +:+ b)). cbn. f_equal. exact IH.
Qed.

Lemma substring_whole (s : string) : String.substring 0 (String.length s) s = s.
Proof. induction s as [|c s IH]; [done|]. cbn. f_equal. exact IH. Qed.

Lemma skip_word_scheme (scheme s : string) :
  all_word scheme = true → skip_word (scheme +:+ s) = skip_word s.
Proof.
  induction scheme as [|c scheme IH]; [done|].
  change (String c scheme +:+ s) with (String c (scheme +:+ s)).
  cbn. intros [Hc Hrest]%andb_true_iff. rewrite Hc. by apply IH.
Qed.

Lemma skip_word_no_slash (h : string) :
  no_slash h = true → String.prefix "://" (skip_word h) = false.
Proof.
  induction h as [|c h IH]; [done|].
  cbn [no_slash skip_word]. intros [Hc Hrest]%andb_true_iff.
  destruct (is_word c); [by apply IH|].
  unfold String.prefix; fold String.prefix.
  destruct (Ascii.ascii_dec _ c) as [<-|]; [|done].
  destruct h as [|c1 h]; [done|]. cbn in Hrest.
  unfold String.prefix; fold String.prefix.
  destruct (Ascii.ascii_dec _ c1) as [<-|]; [|done]. by cbn in Hrest.
Qed.

(** X1.  [connect] removes a protocol from the host: a host written as
    a non-empty run of word characters, [://] and a remainder is reduced
    to that remainder. *)
Theorem strip_protocol_scheme (scheme rest : string) :
  scheme ≠ "" →
  all_word scheme = true →
  strip_protocol (scheme +:+ "://" +:+ rest) = rest.
Proof.
  intros Hne Hword. unfold strip_protocol.
  rewrite skip_word_scheme by done.
  change (skip_word ("://" +:+ rest)) with ("://" +:+ rest).
  assert (("://" +:+ rest =? scheme +:+ "://" +:+ rest)%string = false) as ->.
  { apply String.eqb_neq. intros Heq.
    apply (f_equal String.length) in Heq.
    rewrite (string_length_append scheme) in Heq.
    destruct scheme; [done|]. cbn in Heq. lia. }
  change ("://" +:+ rest)
    with (String (Ascii.ascii_of_nat 58)
            (String (Ascii.ascii_of_nat 47) (String (Ascii.ascii_of_nat 47) rest))).
  unfold drop_chars. simpl.
  assert (String.prefix "" rest = true) as -> by (by destruct rest).
  rewrite Nat.sub_0_r. apply substring_whole.
Qed.

Lemma strip_protocol_scheme_witness :
  strip_protocol ("https" +:+ "://" +:+ "open.rocket.chat") = "open.rocket.chat".
Proof. apply strip_protocol_scheme; [discriminate|reflexivity]. Defined.

(** X2.  A host without any slash, such as [localhost:3000], is used as
    it is. *)
Theorem strip_protocol_without_slash (h : string) :
  no_slash h = true → strip_protocol h = h.
Proof.
  intros Hns. unfold strip_protocol.
  rewrite skip_word_no_slash by done. rewrite andb_false_r.
  destruct h as [|c h]; [done|]. cbn in Hns. apply andb_true_iff in Hns as [Hc _].
  unfold String.prefix; fold String.prefix.
  destruct (Ascii.ascii_dec _ c) as [<-|]; [by cbn in Hc|done].
Qed.

Lemma strip_protocol_without_slash_witness :
  strip_protocol "localhost:3000" = "localhost:3000".
Proof. apply strip_protocol_without_slash. reflexivity. Defined.

(** ** Connecting, continued *)

(** X3.  When the options give a host but no TLS flag, the transport is
    created for that host with its protocol removed, and the TLS flag
    comes from [ROCKETCHAT_URL] alone: it is on exactly when that
    variable starts with [https], whatever protocol the host option
    names.  A TLS flag given in the options is used as it is. *)
Theorem connect_host_and_tls env Asteroid h t cb d :
  asteroid (exec (connect env Asteroid (mkOptions (Some h) None t) cb) d)
  = Asteroid (strip_protocol h)
             (String.prefix "https" (or_default (ROCKETCHAT_URL env) "")) ∧
  ∀ tls o,
    asteroid (exec (connect env Asteroid (mkOptions o (Some tls) t) cb) d)
    = Asteroid (strip_protocol
                  (default (or_default (ROCKETCHAT_URL env) "localhost:3000") o))
               tls.
Proof.
  split; [|intros tls o].
  - unfold connect, setupMethodCache, methodCache.use, methodCache.create.
    eff_simpl. done.
  - unfold connect, setupMethodCache, methodCache.use, methodCache.create.
    eff_simpl. by destruct o.
Qed.

(** A host option naming [https] does not switch TLS on. *)
Example connect_https_host_without_tls :
  ssl (asteroid (exec (connect env0 silent
                         (mkOptions (Some "https://open.rocket.chat") None None) false)
                      (boot (silent "" false)))) = false ∧
  endpoint (asteroid (exec (connect env0 silent
                              (mkOptions (Some "https://open.rocket.chat") None None)
                              false)
                           (boot (silent "" false)))) = "open.rocket.chat".
Proof. split; vm_compute; reflexivity. Qed.

Lemma deliver_forwards c s d :
  emitted (trace (exec (deliver c s) d))
  = emitted (trace d) ++ option_list (forwarded s).
Proof.
  unfold deliver. destruct s.
  - destruct (onceConnected c), (callback c); eff_simpl;
      rewrite !emitted_app; cbn; by rewrite ?app_nil_r.
  - eff_simpl. by rewrite emitted_app.
  - destruct (rejectionTimeout c), (callback c); eff_simpl;
      rewrite ?emitted_app; cbn; by rewrite ?app_nil_r.
Qed.

(** X6.  The lifecycle stream carries exactly what the transport emits:
    every ['connected'] and ['reconnected'] of the transport is emitted
    once, in order, whether or not the [connect] call has already timed
    out or been answered, and a timeout emits nothing. *)
Theorem lifecycle_stream_forwards_transport stimuli : ∀ c d,
  emitted (trace (exec (run c stimuli) d))
  = emitted (trace d) ++ omap forwarded stimuli.
Proof.
  induction stimuli as [|s stimuli IH]; intros c d.
  - cbn. by rewrite app_nil_r.
  - cbn [run]. rewrite exec_bind, IH, deliver_forwards, <- app_assoc.
    f_equal. by destruct s.
Qed.

(** Once the listener of a [connect] call is gone and its timer is not
    armed, no stimulus changes the call's state or reaches its callback. *)
Lemma run_finished l : ∀ c d,
  finished c →
  eval (run c l) d = c ∧
  asteroid (exec (run c l) d) = asteroid d ∧
  ∃ suffix,
    trace (exec (run c l) d) = trace d ++ suffix ∧ connectCallbacks suffix = [].
Proof.
  induction l as [|s l IH]; intros c d Hfin.
  - split_and!; [done..|]. exists []. by rewrite app_nil_r.
  - cbn [run]. rewrite exec_bind, eval_bind.
    assert (eval (deliver c s) d = c ∧
            asteroid (exec (deliver c s) d) = asteroid d ∧
            ∃ e, trace (exec (deliver c s) d) = trace d ++ e ∧
                 connectCallbacks e = []) as (-> & Hast & e & He & Hcb).
    { destruct Hfin as [Honce Htimer]. unfold deliver. destruct s.
      - rewrite Honce. eff_simpl. split_and!; [done..|]. by eexists [_].
      - eff_simpl. split_and!; [done..|]. by eexists [_].
      - destruct (rejectionTimeout c); [done|..];
          (split_and!; [done..|]; exists []; by rewrite app_nil_r). }
    destruct (IH c (exec (deliver c s) d) Hfin) as (Hc & Hast' & suffix & Ht & Hs).
    split_and!; [done|congruence|].
    exists (e ++ suffix). rewrite Ht, He, <- app_assoc. split; [done|].
    by rewrite connectCallbacks_app, Hcb, Hs.
Qed.

Lemma run_connected_first_state c d pre :
  onceConnected c = true →
  Forall (fun s => s = AsteroidReconnected) pre →
  eval (run c (pre ++ [AsteroidConnected])) d
  = mkConnection (config c) (callback c) (clearTimeout (rejectionTimeout c))
                 false (resolve (asteroid d) (awaitable c)).
Proof.
  intros Honce Hpre.
  assert (Forall (inert c) pre) as Hpre'
    by (eapply Forall_impl; [exact Hpre|]; by left).
  destruct (run_inert pre c d Hpre') as (Hc & Hast & _).
  unfold exec, eval in *. rewrite run_app. unfold bind.
  destruct (run c pre d) as [d1 c1]. cbn [fst snd] in *. subst c1.
  cbn [run]. unfold deliver. rewrite Honce.
  destruct (callback c); eff_simpl; by rewrite Hast.
Qed.

Lemma run_timeout_first_state c d pre post :
  rejectionTimeout c = Armed →
  Forall (fun s => s = AsteroidReconnected) pre →
  AsteroidConnected ∉ post →
  eval (run c (pre ++ TimeoutElapsed :: post)) d
  = (if callback c
     then mkConnection (config c) true Fired (onceConnected c) (awaitable c)
     else mkConnection (config c) false Fired (onceConnected c)
                       (reject timeoutError (awaitable c))) ∧
  asteroid (exec (run c (pre ++ TimeoutElapsed :: post)) d) = asteroid d.
Proof.
  intros Harm Hpre Hpost.
  assert (Forall (inert c) pre) as Hpre'
    by (eapply Forall_impl; [exact Hpre|]; by left).
  destruct (run_inert pre c d Hpre') as (Hc & Hast & _).
  unfold exec, eval in *. rewrite run_app. unfold bind.
  destruct (run c pre d) as [d1 c1]. cbn [fst snd] in *. subst c1.
  cbn [run]. unfold bind.
  set (c2 := if callback c
             then mkConnection (config c) true Fired (onceConnected c) (awaitable c)
             else mkConnection (config c) false Fired (onceConnected c)
                               (reject timeoutError (awaitable c))).
  assert (∃ e, deliver c TimeoutElapsed d1 = (with_trace d1 (trace d1 ++ e), c2))
    as (e & ->).
  { unfold deliver. rewrite Harm. subst c2. destruct (callback c); eff_simpl.
    - eexists [_; _]. by rewrite <- app_assoc.
    - by eexists [_]. }
  assert (Forall (inert c2) post) as Hpost'.
  { apply Forall_forall. intros s Hs. destruct s.
    - by destruct Hpost.
    - by left.
    - right. split; [done|]. subst c2. by destruct (callback c). }
  destruct (run_inert post c2 (with_trace d1 (trace d1 ++ e)) Hpost')
    as (Hc3 & Hast3 & _).
  unfold exec, eval in *. destruct (run c2 post _) as [d3 c3].
  cbn [fst snd] in *. subst c3. split; [done|]. by rewrite Hast3.
Qed.

(** *** The timeout window *)

(** The timer that [connect] arms is set to the configured timeout. *)
Lemma connect_window env Asteroid options cb d :
  window (eval (connect env Asteroid options cb) d)
  = timer_delay (default 20000%Z (timeout options)).
Proof.
  unfold connect, setupMethodCache, methodCache.use, methodCache.create, window.
  eff_simpl. by destruct (timeout options).
Qed.

(** Without a ['connected'] of the transport in the window, only
    reconnections come before the timer. *)
Lemma until_timer_quiet delay timeline :
  (∀ t, (t, TransportConnected) ∈ timeline → (delay ≤ t)%Z) →
  ∃ pre, until_timer delay timeline = pre ++ [TimeoutElapsed] ∧
         Forall (fun s => s = AsteroidReconnected) pre.
Proof.
  induction timeline as [|[t e] timeline IH]; intros Hlate.
  - by exists [].
  - cbn [until_timer]. destruct (t <? delay)%Z eqn:Ht; [|by exists []].
    apply Z.ltb_lt in Ht.
    destruct IH as (pre & -> & Hpre).
    { intros t' Hin. apply Hlate. by right. }
    destruct e.
    + specialize (Hlate t (list_elem_of_here _ _)). lia.
    + exists (AsteroidReconnected :: pre). split; [done|]. by constructor.
Qed.

(** With a ['connected'] of the transport in the window, the first of
    them is delivered before the timer runs. *)
Lemma schedule_connected delay early t rest :
  Forall (fun p => (fst p < delay)%Z) early → (t < delay)%Z →
  ∃ pre post,
    schedule delay (early ++ (t, TransportConnected) :: rest)
    = (pre ++ [AsteroidConnected]) ++ post ∧
    Forall (fun s => s = AsteroidReconnected) pre.
Proof.
  intros Hearly Ht. unfold schedule.
  induction early as [|[t' e] early IH]; cbn [app until_timer after_timer].
  - apply Z.ltb_lt in Ht. rewrite Ht. cbn [stimulus_of].
    exists [], (until_timer delay rest ++ after_timer delay rest). by split.
  - apply Forall_cons in Hearly as [Ht' Hearly]. cbn [fst] in Ht'.
    apply Z.ltb_lt in Ht'. rewrite Ht'.
    destruct e; cbn [stimulus_of].
    + eexists [], _. by split.
    + destruct (IH Hearly) as (pre & post & Heq & Hpre).
      exists (AsteroidReconnected :: pre), post. split; [|by constructor].
      cbn [app]. f_equal. exact Heq.
Qed.

(** C5, as amended.  The timeout window is the configured timeout in ms,
    as the timer reads it.  If the transport emits no ['connected']
    within the window, then up to the end of the window no ['connected']
    event is emitted on the lifecycle stream, and when the window ends
    the timeout error rejects the returned promise if no callback was
    given, for good whatever the transport emits later, and goes to the
    callback otherwise, the promise being still pending at that moment.
    If the transport emits ['connected'] within the window, the timer is
    cancelled and ['connected'] is emitted. *)
Theorem connect_within_timeout_window env Asteroid options cb timeline d :
  let T := timer_delay (default 20000%Z (timeout options)) in
  let at_timeout := connect_until_timeout env Asteroid options cb timeline in
  let at_last := connect_over env Asteroid options cb timeline in
  ((∀ t, (t, TransportConnected) ∈ timeline → (T ≤ t)%Z) →
   (connected ∉ emitted (since d (exec at_timeout d))) ∧
   (cb = false →
    awaitable (eval at_timeout d) = Rejected timeoutError ∧
    awaitable (eval at_last d) = Rejected timeoutError) ∧
   (cb = true →
    connectCallbacks (since d (exec at_timeout d)) = [Some timeoutError] ∧
    awaitable (eval at_timeout d) = Pending)) ∧
  (∀ early t rest,
     timeline = early ++ (t, TransportConnected) :: rest →
     Forall (fun p => (fst p < T)%Z) early → (t < T)%Z →
     rejectionTimeout (eval at_last d) = Cleared ∧
     connected ∈ emitted (since d (exec at_last d))).
Proof.
  cbv zeta.
  destruct (connect_initial env Asteroid options cb d)
    as (Hcb & Harm & Honce & Haw & entry & Ht0).
  pose proof (connect_window env Asteroid options cb d) as Hw.
  unfold connect_until_timeout, connect_over. rewrite !exec_bind, !eval_bind.
  set (d0 := exec (connect env Asteroid options cb) d) in *.
  set (c0 := eval (connect env Asteroid options cb) d) in *.
  rewrite Hw. set (T := timer_delay (default 20000%Z (timeout options))).
  split.
  - intros Hlate.
    destruct (until_timer_quiet T timeline Hlate) as (pre & Hpre & Hquiet).
    unfold schedule. rewrite Hpre.
    destruct (run_timeout_first c0 d0 pre [] Harm Hquiet (not_elem_of_nil _))
      as (suffix & Ht & Hem & Hs & Ha & _).
    rewrite Hcb in Hs, Ha. rewrite Haw in Ha.
    rewrite (since_suffix d _ ([ELog entry] ++ suffix))
      by (by rewrite Ht, Ht0, <- app_assoc).
    split_and!.
    + by rewrite emitted_app.
    + intros ->. split; [done|].
      unfold eval at 1. rewrite run_app. unfold bind.
      rewrite (run_pair (run c0 (pre ++ [TimeoutElapsed])) d0). cbn [fst snd].
      fold (eval (run (eval (run c0 (pre ++ [TimeoutElapsed])) d0)
                      (after_timer T timeline))
                 (exec (run c0 (pre ++ [TimeoutElapsed])) d0)).
      rewrite run_settled; by rewrite Ha.
    + intros ->. split; [|done]. by rewrite connectCallbacks_app, Hs.
  - intros early t rest -> Hearly Ht.
    destruct (schedule_connected T early t rest Hearly Ht)
      as (pre & post & -> & Hpre).
    destruct (run_connected_first c0 d0 pre Honce Hpre)
      as (s1 & Ht1 & Hem1 & _ & _ & _).
    unfold exec at 1, eval at 1. rewrite run_app. unfold bind.
    rewrite (run_pair (run c0 (pre ++ [AsteroidConnected])) d0). cbn [fst snd].
    set (d1 := exec (run c0 (pre ++ [AsteroidConnected])) d0) in *.
    set (c1 := eval (run c0 (pre ++ [AsteroidConnected])) d0) in *.
    assert (c1 = mkConnection (config c0) (callback c0) Cleared false
                   (resolve (asteroid d0) (awaitable c0))) as Hc1.
    { subst c1. rewrite (run_connected_first_state c0 d0 pre Honce Hpre).
      by rewrite Harm. }
    assert (finished c1) as Hfin by (by rewrite Hc1).
    destruct (run_finished post c1 d1 Hfin) as (Hc & _ & s2 & Ht2 & _).
    fold (exec (run c1 post) d1). fold (eval (run c1 post) d1).
    rewrite Hc. split; [by rewrite Hc1|].
    rewrite (since_suffix d _ ([ELog entry] ++ s1 ++ s2))
      by (by rewrite Ht2, Ht1, Ht0, <- !app_assoc).
    rewrite !emitted_app. apply elem_of_app. right. apply elem_of_app. by left.
Qed.

Lemma connect_within_timeout_window_witness :
  awaitable (eval (connect_over env0 silent (mkOptions None None (Some 50%Z)) false
                     [(10, TransportReconnected); (60, TransportConnected)]%Z)
                  (boot (silent "" false)))
  = Rejected timeoutError ∧
  connectCallbacks
    (since (boot (silent "" false))
       (exec (connect_until_timeout env0 silent (mkOptions None None (Some 50%Z)) true
                [(10, TransportReconnected); (60, TransportConnected)]%Z)
             (boot (silent "" false))))
  = [Some timeoutError] ∧
  rejectionTimeout
    (eval (connect_over env0 silent (mkOptions None None (Some 50%Z)) false
             [(10, TransportReconnected); (40, TransportConnected);
              (70, TransportReconnected)]%Z)
          (boot (silent "" false)))
  = Cleared.
Proof.
  pose proof (connect_within_timeout_window env0 silent
                (mkOptions None None (Some 50%Z)) false
                [(10, TransportReconnected); (60, TransportConnected)]%Z
                (boot (silent "" false))) as Hquiet.
  pose proof (connect_within_timeout_window env0 silent
                (mkOptions None None (Some 50%Z)) true
                [(10, TransportReconnected); (60, TransportConnected)]%Z
                (boot (silent "" false))) as Hquiet'.
  pose proof (connect_within_timeout_window env0 silent
                (mkOptions None None (Some 50%Z)) false
                [(10, TransportReconnected); (40, TransportConnected);
                 (70, TransportReconnected)]%Z
                (boot (silent "" false))) as Hintime.
  cbv zeta in Hquiet, Hquiet', Hintime.
  destruct Hquiet as [Hquiet _], Hquiet' as [Hquiet' _], Hintime as [_ Hintime].
  assert (∀ t : Z,
            (t, TransportConnected)
            ∈ [(10, TransportReconnected); (60, TransportConnected)]%Z →
            (timer_delay (default 20000 (timeout (mkOptions None None (Some 50)))) ≤ t)%Z)
    as Hlate.
  { intros t Hin.
    apply elem_of_cons in Hin as [[=]|Hin].
    apply list_elem_of_singleton in Hin as [= ->]. vm_compute. discriminate. }
  split_and!.
  - exact (proj2 (proj1 (proj2 (Hquiet Hlate)) eq_refl)).
  - exact (proj1 (proj2 (proj2 (Hquiet' Hlate)) eq_refl)).
  - exact (proj1 (Hintime [(10, TransportReconnected)]%Z 40%Z
                    [(70, TransportReconnected)]%Z eq_refl
                    ltac:(repeat constructor) eq_refl)).
Defined.

(** C5 as stated fails, in two ways, for [connect({timeout: 50})].  With
    a callback and a transport that never connects, the timeout error
    goes to the callback and the returned promise is never rejected.
    And a transport that emits no ['connected'] within the window but
    emits one 10 ms after it has that event forwarded to the lifecycle
    stream, although the call has timed out. *)
Lemma connect_within_timeout_window_counterexample :
  awaitable (eval (connect_over env0 silent (mkOptions None None (Some 50%Z)) true [])
                  (boot (silent "" false)))
  = Pending ∧
  connectCallbacks
    (trace (exec (connect_over env0 silent (mkOptions None None (Some 50%Z)) true [])
                 (boot (silent "" false))))
  = [Some timeoutError] ∧
  awaitable (eval (connect_over env0 silent (mkOptions None None (Some 50%Z)) false
                     [(60, TransportConnected)]%Z)
                  (boot (silent "" false)))
  = Rejected timeoutError ∧
  emitted
    (trace (exec (connect_over env0 silent (mkOptions None None (Some 50%Z)) false
                    [(60, TransportConnected)]%Z)
                 (boot (silent "" false))))
  = [connected].
Proof. split_and!; vm_compute; reflexivity. Qed.

(** X7.  Once the transport has connected before the timer fired, the
    outcome of the [connect] call is final: whatever the transport or
    the timer do afterwards, the promise stays resolved with the
    transport handle and the callback, if there is one, has been invoked
    exactly once, without an error. *)
Theorem connect_outcome_is_final env Asteroid options cb d pre later :
  Forall (fun s => s = AsteroidReconnected) pre →
  awaitable (eval (connect_then env Asteroid options cb
                     (pre ++ AsteroidConnected :: later)) d)
  = Fulfilled (asteroid (exec (connect env Asteroid options cb) d)) ∧
  connectCallbacks
    (since d (exec (connect_then env Asteroid options cb
                      (pre ++ AsteroidConnected :: later)) d))
  = (if cb then [None] else []).
Proof.
  intros Hpre.
  destruct (connect_initial env Asteroid options cb d)
    as (Hcb & Harm & Honce & Haw & entry & Ht0).
  unfold connect_then. rewrite exec_bind, eval_bind.
  set (d0 := exec (connect env Asteroid options cb) d) in *.
  set (c0 := eval (connect env Asteroid options cb) d) in *.
  destruct (run_connected_first c0 d0 pre Honce Hpre)
    as (s1 & Ht1 & _ & Hs1 & Ha1 & Htimer).
  replace (pre ++ AsteroidConnected :: later)
    with ((pre ++ [AsteroidConnected]) ++ later) by (by rewrite <- app_assoc).
  unfold exec at 1, eval at 1. rewrite run_app. unfold bind.
  rewrite (run_pair (run c0 (pre ++ [AsteroidConnected])) d0).
  set (d1 := exec (run c0 (pre ++ [AsteroidConnected])) d0) in *.
  set (c1 := eval (run c0 (pre ++ [AsteroidConnected])) d0) in *.
  assert (finished c1) as Hfin.
  { subst c1. rewrite (run_connected_first_state c0 d0 pre Honce Hpre).
    split; [done|].
    change (clearTimeout (rejectionTimeout c0) ≠ Armed). by rewrite Harm. }
  destruct (run_finished later c1 d1 Hfin) as (Hc & _ & s2 & Ht2 & Hs2).
  fold (exec (run c1 later) d1). fold (eval (run c1 later) d1).
  rewrite Hc, Ha1, Haw. split; [done|].
  rewrite (since_suffix d _ ([ELog entry] ++ s1 ++ s2)).
  - rewrite !connectCallbacks_app, Hs1, Hs2, Hcb. cbn. by rewrite app_nil_r.
  - rewrite Ht2, Ht1, Ht0. by rewrite <- !app_assoc.
Qed.

Lemma connect_outcome_is_final_witness :
  connectCallbacks
    (since (boot (silent "" false))
       (exec (connect_then env0 silent (mkOptions None None None) true
                ([AsteroidReconnected]
                 ++ AsteroidConnected :: [TimeoutElapsed; AsteroidConnected]))
             (boot (silent "" false))))
  = [None].
Proof.
  apply (connect_outcome_is_final env0 silent (mkOptions None None None) true).
  by repeat constructor.
Defined.

(** X8.  With a callback, a transport that connects only after the
    timeout has fired is still taken up: the callback, which already got
    the timeout error, is invoked a second time without an error and the
    returned promise resolves. *)
Theorem connect_late_after_timeout env Asteroid options d pre mid :
  Forall (fun s => s = AsteroidReconnected) pre →
  AsteroidConnected ∉ mid →
  connectCallbacks
    (since d (exec (connect_then env Asteroid options true
                      ((pre ++ TimeoutElapsed :: mid) ++ [AsteroidConnected])) d))
  = [Some timeoutError; None] ∧
  awaitable (eval (connect_then env Asteroid options true
                     ((pre ++ TimeoutElapsed :: mid) ++ [AsteroidConnected])) d)
  = Fulfilled (asteroid (exec (connect env Asteroid options true) d)).
Proof.
  intros Hpre Hmid.
  destruct (connect_initial env Asteroid options true d)
    as (Hcb & Harm & Honce & Haw & entry & Ht0).
  unfold connect_then. rewrite exec_bind, eval_bind.
  set (d0 := exec (connect env Asteroid options true) d) in *.
  set (c0 := eval (connect env Asteroid options true) d) in *.
  destruct (run_timeout_first c0 d0 pre mid Harm Hpre Hmid)
    as (s1 & Ht1 & _ & Hs1 & Ha1 & _).
  rewrite Hcb in Hs1, Ha1.
  unfold exec at 1, eval at 1. rewrite run_app. unfold bind.
  rewrite (run_pair (run c0 (pre ++ TimeoutElapsed :: mid)) d0).
  set (d1 := exec (run c0 (pre ++ TimeoutElapsed :: mid)) d0) in *.
  set (c1 := eval (run c0 (pre ++ TimeoutElapsed :: mid)) d0) in *.
  destruct (run_timeout_first_state c0 d0 pre mid Harm Hpre Hmid) as (Hc1 & Hast1).
  fold c1 in Hc1. fold d1 in Hast1. rewrite Hcb in Hc1.
  assert (onceConnected c1 = true) as Honce1 by (by rewrite Hc1).
  assert (callback c1 = true) as Hcb1 by (by rewrite Hc1).
  destruct (run_connected_first c1 d1 [] Honce1 (List.Forall_nil _))
    as (s2 & Ht2 & _ & Hs2 & Ha2 & _).
  cbn [app] in *.
  fold (exec (run c1 [AsteroidConnected]) d1).
  fold (eval (run c1 [AsteroidConnected]) d1).
  rewrite Ha2, Ha1, Haw, Hast1. split; [|done].
  rewrite (since_suffix d _ ([ELog entry] ++ s1 ++ s2)).
  - rewrite !connectCallbacks_app, Hs1, Hs2, Hcb1. done.
  - rewrite Ht2, Ht1, Ht0. by rewrite <- !app_assoc.
Qed.

Lemma connect_late_after_timeout_witness :
  connectCallbacks
    (since (boot (silent "" false))
       (exec (connect_then env0 silent (mkOptions None None (Some 50%Z)) true
                (([] ++ TimeoutElapsed :: [AsteroidReconnected])
                 ++ [AsteroidConnected]))
             (boot (silent "" false))))
  = [Some timeoutError; None].
Proof.
  apply (connect_late_after_timeout env0 silent (mkOptions None None (Some 50%Z))).
  - constructor.
  - by apply (bool_decide_unpack _).
Defined.

(** ** Calls, continued *)

Lemma errorsLogged_app t u : errorsLogged (t ++ u) = errorsLogged t ++ errorsLogged u.
Proof. apply omap_app. Qed.

Lemma remoteCalls_app t u : remoteCalls (t ++ u) = remoteCalls t ++ remoteCalls u.
Proof. apply omap_app. Qed.

(** X9.  [asyncCall] is transparent: it makes exactly one remote call,
    with the parameters as an array, its promise settles exactly as the
    transport's result promise does (pending, value or error), an error
    is logged only for a rejection, and neither the cache nor the
    subscriptions are touched. *)
Theorem asyncCall_settles_as_transport d method params :
  eval (asyncCall method params) d
  = result (asteroid d) (methodCache.invocations (trace d)) ∧
  remoteCalls (since d (exec (asyncCall method params) d))
  = [(method, if isArray params then params else JArr [params])] ∧
  errorsLogged (since d (exec (asyncCall method params) d))
  = match result (asteroid d) (methodCache.invocations (trace d)) with
    | Rejected e => [("[" +:+ method +:+ "] Error:", e)]
    | _ => []
    end ∧
  buckets (exec (asyncCall method params) d) = buckets d ∧
  subscriptions (exec (asyncCall method params) d) = subscriptions d.
Proof.
  unfold eval, exec, since. rewrite asyncCall_run. cbn [fst snd trace with_trace].
  rewrite drop_app_length. split_and!; try done.
  - rewrite remoteCalls_app. cbn.
    destruct (result _ _) as [|v|e]; cbn; [done|by destruct (truthy v)|done].
  - rewrite errorsLogged_app. cbn.
    destruct (result _ _) as [|v|e]; cbn; [done|by destruct (truthy v)|done].
Qed.

(** X10.  A single parameter that is not an array and the array holding
    just that parameter are interchangeable: [asyncCall] does the same
    with both. *)
Theorem asyncCall_single_parameter d method x :
  isArray x = false →
  asyncCall method x d = asyncCall method (JArr [x]) d.
Proof.
  intros Hx. rewrite !asyncCall_run. unfold as_array. by rewrite Hx.
Qed.

Lemma asyncCall_single_parameter_witness :
  asyncCall "joinRoom" (JStr "GENERAL") (connected0 silent)
  = asyncCall "joinRoom" (JArr [JStr "GENERAL"]) (connected0 silent).
Proof. apply asyncCall_single_parameter. reflexivity. Defined.

Lemma logout_run d :
  logout d =
    (with_trace d
       (trace d ++ ELogout
          :: match logoutResult (asteroid d) with
             | Rejected e => [ELog (LogError "[Logout] Error:" e)]
             | _ => []
             end),
     logoutResult (asteroid d)).
Proof.
  unfold logout, promise_catch, with_trace.
  destruct (logoutResult (asteroid d)) as [|v|e] eqn:Hl; eff_simpl; rewrite Hl; cbn;
    by rewrite <- ?app_assoc.
Qed.

(** X11.  [logout] asks the transport to log out exactly once and its
    promise settles exactly as the transport's does; a rejection is
    logged as an error and passed on unchanged. *)
Theorem logout_settles_as_transport d :
  eval logout d = logoutResult (asteroid d) ∧
  since d (exec logout d)
  = ELogout :: match logoutResult (asteroid d) with
               | Rejected e => [ELog (LogError "[Logout] Error:" e)]
               | _ => []
               end ∧
  subscriptions (exec logout d) = subscriptions d.
Proof.
  unfold eval, exec, since. rewrite logout_run. cbn.
  by rewrite drop_app_length.
Qed.

(** Whatever the subscriptions are, the loop of [unsubscribeAll] leaves
    the transport handle alone. *)
Lemma unsubscribe_asteroid s d : asteroid (exec (unsubscribe s) d) = asteroid d.
Proof.
  unfold unsubscribe. eff_simpl.
  by destruct (indexOf s (subscriptions d)).
Qed.

Lemma map_from_asteroid steps : ∀ k d,
  asteroid (exec (map_from unsubscribe k steps) d) = asteroid d.
Proof.
  induction steps as [|steps IH]; intros k d; [done|].
  cbn [map_from]. rewrite !exec_bind. rewrite IH.
  change (exec (gets subscriptions) d) with d.
  destruct (eval (gets subscriptions) d !! k); [apply unsubscribe_asteroid|done].
Qed.

Lemma unsubscribeAll_asteroid d : asteroid (exec unsubscribeAll d) = asteroid d.
Proof.
  unfold unsubscribeAll. rewrite exec_bind.
  change (exec (gets subscriptions) d) with d. apply map_from_asteroid.
Qed.

Lemma unsubscribe_length s d :
  length (subscriptions (exec (unsubscribe s) d)) ≤ length (subscriptions d).
Proof.
  unfold unsubscribe. eff_simpl.
  destruct (indexOf s (subscriptions d)) as [i|]; cbn; [|done].
  rewrite delete_take_drop, length_app, length_take, length_drop. lia.
Qed.

Lemma map_from_length steps : ∀ k d,
  length (subscriptions (exec (map_from unsubscribe k steps) d))
  ≤ length (subscriptions d).
Proof.
  induction steps as [|steps IH]; intros k d; [done|].
  cbn [map_from]. rewrite !exec_bind.
  change (exec (gets subscriptions) d) with d.
  etrans; [apply IH|].
  destruct (eval (gets subscriptions) d !! k); [apply unsubscribe_length|done].
Qed.

Lemma unsubscribeAll_length d :
  length (subscriptions (exec unsubscribeAll d)) ≤ length (subscriptions d).
Proof.
  unfold unsubscribeAll. rewrite exec_bind.
  change (exec (gets subscriptions) d) with d. apply map_from_length.
Qed.

(** X12.  [disconnect] settles exactly as the transport's logout does:
    it resolves when the logout succeeds and rejects with the error of a
    failed logout.  It never adds a subscription, and with no active
    subscription it leaves none. *)
Theorem disconnect_settles_as_logout d :
  eval disconnect d = logoutResult (asteroid d) ∧
  length (subscriptions (exec disconnect d)) ≤ length (subscriptions d) ∧
  (subscriptions d = [] → subscriptions (exec disconnect d) = []).
Proof.
  assert (eval disconnect d = logoutResult (asteroid d) ∧
          length (subscriptions (exec disconnect d)) ≤ length (subscriptions d))
    as [Hres Hlen].
  { unfold disconnect. rewrite !eval_bind, !exec_bind.
    set (d1 := exec (logger.info _ None) d).
    set (d2 := exec unsubscribeAll d1).
    assert (asteroid d2 = asteroid d) as Hast by apply (unsubscribeAll_asteroid d1).
    assert (length (subscriptions d2) ≤ length (subscriptions d)) as Hlen
      by apply (unsubscribeAll_length d1).
    assert (eval logout d2 = logoutResult (asteroid d)) as Hev
      by (unfold eval; rewrite logout_run; cbn; by rewrite Hast).
    assert (subscriptions (exec logout d2) = subscriptions d2) as Hex
      by (unfold exec; by rewrite logout_run).
    rewrite Hev. unfold promise_then.
    destruct (logoutResult (asteroid d)) as [|[]|e]; eff_simpl; by rewrite Hex. }
  split_and!; [done..|].
  intros Hnil. rewrite Hnil in Hlen. by apply length_zero_iff_nil, Nat.le_0_r.
Qed.

Lemma disconnect_settles_as_logout_witness :
  subscriptions (exec disconnect (connected0 (failing (mkError "offline")))) = [].
Proof.
  apply (disconnect_settles_as_logout (connected0 (failing (mkError "offline")))).
  reflexivity.
Defined.

(** ** Subscriptions, continued *)

(** X13.  Unsubscribing what is not in the active set does nothing at
    all: the state is unchanged and [stop] is not called. *)
Theorem unsubscribe_unknown_is_noop d s :
  s ∉ subscriptions d → unsubscribe s d = (d, tt).
Proof.
  intros Hs. unfold unsubscribe, bind, gets, indexOf.
  assert (list_find (λ x, x = s) (subscriptions d) = None) as ->; [|done].
  apply list_find_None, Forall_forall. by intros y Hy ->.
Qed.

Lemma unsubscribe_unknown_is_noop_witness :
  unsubscribe sub1 (exec (push sub0) (connected0 silent))
  = (exec (push sub0) (connected0 silent), tt).
Proof.
  apply unsubscribe_unknown_is_noop.
  by apply (bool_decide_unpack _).
Defined.

(** X14.  Unsubscribing an active subscription stops it once and removes
    its first occurrence from the set, keeping the others in order. *)
Theorem unsubscribe_removes_first_occurrence d s :
  s ∈ subscriptions d →
  ∃ before after,
    subscriptions d = before ++ s :: after ∧
    (s ∉ before) ∧
    subscriptions (exec (unsubscribe s) d) = before ++ after ∧
    stops (since d (exec (unsubscribe s) d)) = [s].
Proof.
  intros (before & after & Hs & Hfirst)%list_elem_of_split_l.
  exists before, after. split_and!; [done..| |].
  - unfold exec. by rewrite (unsubscribe_present d before s after).
  - unfold exec, since. rewrite (unsubscribe_present d before s after) by done.
    cbn. by rewrite drop_app_length.
Qed.

Lemma unsubscribe_removes_first_occurrence_witness :
  ∃ before after,
    subscriptions (exec (push sub0;; push sub1;; push sub0) (connected0 silent))
    = before ++ sub0 :: after ∧
    (sub0 ∉ before) ∧
    subscriptions (exec (unsubscribe sub0)
                     (exec (push sub0;; push sub1;; push sub0) (connected0 silent)))
    = before ++ after ∧
    stops (since (exec (push sub0;; push sub1;; push sub0) (connected0 silent))
             (exec (unsubscribe sub0)
                (exec (push sub0;; push sub1;; push sub0) (connected0 silent))))
    = [sub0].
Proof.
  apply unsubscribe_removes_first_occurrence.
  by apply (bool_decide_unpack _).
Defined.

(** The active set holds only subscriptions handed out earlier: this is
    so before anything was subscribed, and [subscribe] and [unsubscribe]
    keep it so. *)
Lemma handed_out_boot a : handed_out (boot a).
Proof. constructor. Qed.

Lemma handed_out_subscribe topic roomId d :
  handed_out d → handed_out (exec (subscribe topic roomId) d).
Proof.
  unfold handed_out. intros Hd.
  assert (subscriptions (exec (subscribe topic roomId) d)
          = subscriptions d
            ++ [mkSubscription (length (List.filter is_subscribe (trace d)))
                               topic roomId] ∧
          length (List.filter is_subscribe (trace (exec (subscribe topic roomId) d)))
          = S (length (List.filter is_subscribe (trace d)))) as [-> ->].
  { unfold subscribe, asteroid_subscribe, push, promise_then. eff_simpl.
    destruct (ready (asteroid d) _) as [|i|e]; eff_simpl;
      rewrite ?filter_is_subscribe_log, !List.filter_app, !length_app; cbn;
      split; try done; lia. }
  apply Forall_app. split.
  - eapply Forall_impl; [exact Hd|]. cbn. intros s Hs. lia.
  - repeat constructor.
Qed.

Lemma handed_out_unsubscribe s d :
  handed_out d → handed_out (exec (unsubscribe s) d).
Proof.
  unfold handed_out, unsubscribe, indexOf. intros Hd. eff_simpl.
  destruct (list_find (λ s0, s0 = s) (subscriptions d)) as [[i x]|] eqn:Hf;
    cbn; [|done].
  rewrite !List.filter_app, !length_app. cbn. rewrite !Nat.add_0_r.
  apply Forall_delete. exact Hd.
Qed.



(** X16.  [subscribeToMessages] subscribes to the message stream of the
    user and keeps the subscription in the active set in every case.
    When the transport reports it ready, the promise resolves with the
    subscription and the message collection of the transport is bound,
    so that [reactToMessages] then registers its listener on that
    collection; otherwise the promise stays pending and the collection
    is left as it was. *)
Theorem subscribeToMessages_binds_collection d :
  subscriptions (exec subscribeToMessages d)
  = subscriptions d
    ++ [mkSubscription (length (List.filter is_subscribe (trace d)))
                       "stream-room-messages" "__my_messages__"] ∧
  (∀ i,
     ready (asteroid d)
           (mkSubscription (length (List.filter is_subscribe (trace d)))
                           "stream-room-messages" "__my_messages__")
     = Fulfilled i →
     eval subscribeToMessages d
     = Fulfilled (mkSubscription (length (List.filter is_subscribe (trace d)))
                                 "stream-room-messages" "__my_messages__") ∧
     messages (exec subscribeToMessages d)
     = Some (getCollection (asteroid d) "stream-room-messages") ∧
     eval reactToMessages (exec subscribeToMessages d)
     = Some (onChange (getCollection (asteroid d) "stream-room-messages"))) ∧
  ((∀ i,
      ready (asteroid d)
            (mkSubscription (length (List.filter is_subscribe (trace d)))
                            "stream-room-messages" "__my_messages__")
      ≠ Fulfilled i) →
   eval subscribeToMessages d = Pending ∧
   messages (exec subscribeToMessages d) = messages d).
Proof.
  unfold subscribeToMessages, subscribe, asteroid_subscribe, push, promise_then,
    _messageCollectionName, _messageStreamName.
  eff_simpl. rewrite filter_is_subscribe_log.
  destruct (ready (asteroid d) _) as [|i|e] eqn:Hready; eff_simpl.
  - split_and!; [done| |done]. intros i [=].
  - split_and!; [done| |].
    + intros j _. split_and!; [done..|].
      unfold reactToMessages. by eff_simpl.
    + intros Hno. by destruct (Hno i).
  - split_and!; [done| |done]. intros i [=].
Qed.

Lemma subscribeToMessages_binds_collection_witness :
  eval subscribeToMessages (connected0 (failing (mkError "no such stream")))
  = Pending ∧
  messages (exec subscribeToMessages (connected0 (failing (mkError "no such stream"))))
  = None.
Proof.
  apply (subscribeToMessages_binds_collection
           (connected0 (failing (mkError "no such stream")))).
  intros i. discriminate.
Defined.

(** ** Rooms *)

Lemma cacheCall_asteroid method k d :
  asteroid (exec (cacheCall method k) d) = asteroid d.
Proof.
  unfold exec. rewrite cacheCall_run. cbn.
  by destruct (call_frame method k d) as [-> _].
Qed.

Lemma remoteCalls_of_outcome_log method p :
  remoteCalls (outcome_log method p) = [].
Proof. destruct p as [|v|e]; cbn; [done|by destruct (truthy v)|done]. Qed.

Lemma invocations_of_outcome_log method p :
  methodCache.invocations (outcome_log method p) = 0.
Proof.
  unfold methodCache.invocations.
  destruct p as [|v|e]; cbn; [done|by destruct (truthy v)|done].
Qed.

(** X17.  [joinRoom] asks the server to join only once the room id is
    known: when the lookup is rejected, the rejection is handed on and
    no [joinRoom] call is made; when it resolves, exactly one [joinRoom]
    call is made, with the id the lookup gave as its parameter, and the
    promise settles as that call does. *)
Theorem joinRoom_follows_lookup d room :
  (∀ e,
     eval (getRoomId room) d = Rejected e →
     eval (joinRoom room) d = Rejected e ∧
     exec (joinRoom room) d = exec (getRoomId room) d) ∧
  (∀ roomId,
     eval (getRoomId room) d = Fulfilled roomId →
     eval (joinRoom room) d
     = result (asteroid d)
              (methodCache.invocations (trace (exec (getRoomId room) d))) ∧
     remoteCalls (trace (exec (joinRoom room) d))
     = remoteCalls (trace (exec (getRoomId room) d))
       ++ [("joinRoom", if isArray roomId then roomId else JArr [roomId])]).
Proof.
  unfold joinRoom. split.
  - intros e He. rewrite eval_bind, exec_bind, He. done.
  - intros roomId Hid. rewrite eval_bind, exec_bind, Hid. cbn [promise_chain].
    assert (asteroid (exec (getRoomId room) d) = asteroid d) as Hast
      by apply cacheCall_asteroid.
    generalize dependent (exec (getRoomId room) d). intros d1 Hast.
    unfold eval, exec. rewrite asyncCall_run. cbn [fst snd trace with_trace].
    rewrite Hast. split; [done|].
    rewrite remoteCalls_app, (remoteCalls_app [_; _]), remoteCalls_of_outcome_log.
    by rewrite app_nil_r.
Qed.

Lemma joinRoom_follows_lookup_witness :
  eval (joinRoom "general") (connected0 (failing (mkError "no such room")))
  = Rejected (mkError "no such room") ∧
  remoteCalls (trace (exec (joinRoom "general") (connected0 (willing (JStr "GENERAL")))))
  = remoteCalls (trace (exec (getRoomId "general")
                              (connected0 (willing (JStr "GENERAL")))))
    ++ [("joinRoom", JArr [JStr "GENERAL"])].
Proof.
  split.
  - apply (proj1 (joinRoom_follows_lookup
                    (connected0 (failing (mkError "no such room"))) "general")).
    reflexivity.
  - apply (proj2 (joinRoom_follows_lookup
                    (connected0 (willing (JStr "GENERAL"))) "general")
             (JStr "GENERAL")).
    reflexivity.
Defined.

(** X18.  [getDirectMessageRoomId] resolves with the [rid] property of
    what the server answered, [undefined] when the answer is an object
    without it; an answer of [null] or [undefined] makes the promise
    reject although the remote call succeeded, and a rejected call is
    handed on unchanged. *)
Theorem getDirectMessageRoomId_reads_rid instance_rid d username :
  (∀ fields r,
     eval (cacheCall "createDirectMessage" (JStr username)) d = Fulfilled (JObj fields) →
     own_property "rid" fields = Some r →
     eval (getDirectMessageRoomId instance_rid username) d = Fulfilled r) ∧
  (∀ fields,
     eval (cacheCall "createDirectMessage" (JStr username)) d = Fulfilled (JObj fields) →
     own_property "rid" fields = None →
     eval (getDirectMessageRoomId instance_rid username) d = Fulfilled JUndefined) ∧
  (eval (cacheCall "createDirectMessage" (JStr username)) d = Fulfilled JNull
   ∨ eval (cacheCall "createDirectMessage" (JStr username)) d = Fulfilled JUndefined →
   ∃ e, eval (getDirectMessageRoomId instance_rid username) d = Rejected e) ∧
  (∀ e,
     eval (cacheCall "createDirectMessage" (JStr username)) d = Rejected e →
     eval (getDirectMessageRoomId instance_rid username) d = Rejected e).
Proof.
  unfold getDirectMessageRoomId. rewrite !eval_bind. split_and!.
  - intros fields r -> Hr. cbn. by rewrite Hr.
  - intros fields -> Hr. cbn. by rewrite Hr.
  - intros [-> | ->]; by eexists.
  - by intros e ->.
Qed.

Lemma getDirectMessageRoomId_reads_rid_witness :
  eval (getDirectMessageRoomId (fun _ => JUndefined) "alice")
       (connected0 (willing (JObj [("rid", JStr "dm1"); ("t", JStr "d")])))
  = Fulfilled (JStr "dm1") ∧
  ∃ e, eval (getDirectMessageRoomId (fun _ => JUndefined) "alice")
            (connected0 (willing JNull)) = Rejected e.
Proof.
  split.
  - eapply (proj1 (getDirectMessageRoomId_reads_rid (fun _ => JUndefined)
                     (connected0 (willing (JObj [("rid", JStr "dm1"); ("t", JStr "d")])))
                     "alice")); reflexivity.
  - apply (proj1 (proj2 (proj2 (getDirectMessageRoomId_reads_rid (fun _ => JUndefined)
                                  (connected0 (willing JNull)) "alice")))).
    left. reflexivity.
Defined.

(** ** Sending, continued *)

Lemma asyncCall_invocations method params d :
  methodCache.invocations (trace (exec (asyncCall method params) d))
  = S (methodCache.invocations (trace d)) ∧
  asteroid (exec (asyncCall method params) d) = asteroid d.
Proof.
  unfold exec. rewrite asyncCall_run. cbn [fst trace asteroid with_trace].
  split; [|done].
  rewrite !invocations_app, invocations_of_outcome_log.
  unfold methodCache.invocations. cbn. lia.
Qed.

Lemma sends_results msgs : ∀ d,
  eval (sequence (List.map sendMessage_prepared msgs)) d
  = List.map (fun i => result (asteroid d) (methodCache.invocations (trace d) + i))
             (seq 0 (length msgs)).
Proof.
  induction msgs as [|m msgs IH]; intros d; [done|].
  cbn [List.map sequence length seq].
  rewrite !eval_bind, eval_ret, IH.
  destruct (asyncCall_invocations "sendMessage" (JMessage m) d) as [Hn Ha].
  change (exec (sendMessage_prepared m) d)
    with (exec (asyncCall "sendMessage" (JMessage m)) d).
  rewrite Hn, Ha.
  f_equal.
  - unfold sendMessage_prepared, eval. rewrite asyncCall_run. cbn.
    by rewrite Nat.add_0_r.
  - rewrite <- seq_shift, List.map_map. apply List.map_ext. intros i.
    f_equal. lia.
Qed.

Lemma promise_all_fulfilled {A} (vs : list A) :
  promise_all (List.map Fulfilled vs) = Fulfilled vs.
Proof. induction vs as [|v vs IH]; [done|]. cbn. by rewrite IH. Qed.

Lemma promise_all_rejected {A} (ps : list (Settlement A)) e :
  Rejected e ∈ ps → ∃ e', promise_all ps = Rejected e'.
Proof.
  intros Hin. induction ps as [|p ps IH]; [by apply elem_of_nil in Hin|].
  apply elem_of_cons in Hin as [<-|Hin]; cbn.
  - destruct (promise_all ps); by eexists.
  - destruct (IH Hin) as [e' ->]. destruct p; by eexists.
Qed.

(** X19.  [sendMessageByRoomId] sends one message per text, in order
    (exactly one for a single content, none for an empty array).  Its
    promise resolves with the servers' answers in that order when every
    send is answered, and rejects as soon as one send is rejected. *)
Theorem sendMessageByRoomId_collects_answers d content roomId :
  (∀ answers,
     (∀ i, i < length (prepareMessages content roomId) →
           result (asteroid d) (methodCache.invocations (trace d) + i)
           = Fulfilled (answers i)) →
     eval (sendMessageByRoomId content roomId) d
     = Fulfilled (List.map answers (seq 0 (length (prepareMessages content roomId))))) ∧
  (∀ i e,
     i < length (prepareMessages content roomId) →
     result (asteroid d) (methodCache.invocations (trace d) + i) = Rejected e →
     ∃ e', eval (sendMessageByRoomId content roomId) d = Rejected e') ∧
  length (remoteCalls (since d (exec (sendMessageByRoomId content roomId) d)))
  = match content with Many texts => length texts | Single _ => 1 end ∧
  length (prepareMessages content roomId)
  = match content with Many texts => length texts | Single _ => 1 end.
Proof.
  assert (length (prepareMessages content roomId)
          = match content with Many texts => length texts | Single _ => 1 end)
    as Hcount by (destruct content; cbn; [done|by rewrite length_map]).
  assert (∃ suffix, trace (exec (sendMessageByRoomId content roomId) d)
                    = trace d ++ suffix ∧
                    length (remoteCalls suffix)
                    = length (prepareMessages content roomId)) as (suffix & Ht & Hs).
  { unfold sendMessageByRoomId. rewrite exec_bind, exec_ret.
    generalize (prepareMessages content roomId). intros msgs. revert d.
    induction msgs as [|m msgs IH]; intros d.
    - exists []. by rewrite app_nil_r.
    - cbn [List.map sequence]. rewrite !exec_bind, exec_ret.
      destruct (IH (exec (sendMessage_prepared m) d)) as (s2 & -> & Hs2).
      unfold sendMessage_prepared at 1, exec at 1. rewrite asyncCall_run.
      cbn [fst trace with_trace]. eexists. rewrite <- app_assoc. split; [done|].
      rewrite !remoteCalls_app, remoteCalls_of_outcome_log, !length_app, Hs2.
      cbn. lia. }
  unfold sendMessageByRoomId in *. rewrite eval_bind, eval_ret, sends_results.
  split_and!; [| |by rewrite (since_suffix _ _ _ Ht), Hs|done].
  - intros answers Hall.
    rewrite <- promise_all_fulfilled, List.map_map. f_equal.
    apply List.map_ext_in. intros i Hi%in_seq. apply Hall. lia.
  - intros i e Hi Hrej. apply (promise_all_rejected _ e).
    rewrite <- Hrej. apply list_elem_of_In, in_map_iff.
    exists i. split; [done|]. apply in_seq. lia.
Qed.

Lemma sendMessageByRoomId_collects_answers_witness :
  eval (sendMessageByRoomId (Many ["hello"; "world"]) "GENERAL")
       (connected0 (willing (JStr "sent")))
  = Fulfilled [JStr "sent"; JStr "sent"] ∧
  ∃ e', eval (sendMessageByRoomId (Many ["hello"; "world"]) "GENERAL")
             (connected0 (failing (mkError "not allowed"))) = Rejected e'.
Proof.
  split.
  - apply (proj1 (sendMessageByRoomId_collects_answers
                    (connected0 (willing (JStr "sent")))
                    (Many ["hello"; "world"]) "GENERAL")
             (fun _ => JStr "sent")).
    reflexivity.
  - apply (proj1 (proj2 (sendMessageByRoomId_collects_answers
                           (connected0 (failing (mkError "not allowed")))
                           (Many ["hello"; "world"]) "GENERAL"))
             1 (mkError "not allowed")); [cbn; lia|reflexivity].
Defined.

(** X20.  The room id given to [sendMessage] is not put on the message:
    with a non-empty room id the message is wrapped in a new [Message]
    and sent without [setRoomId] being called, whatever the id is;
    without one (or with the empty string) the message is sent as it
    is, which is also what [customMessage] does. *)
Theorem sendMessage_drops_room_id d message :
  (∀ roomId,
     roomId ≠ "" →
     remoteCalls (trace (exec (sendMessage message (Some roomId)) d))
     = remoteCalls (trace d)
       ++ [("sendMessage", JArr [JMessage (new_Message (ObjectContent message))])]) ∧
  remoteCalls (trace (exec (sendMessage message None) d))
  = remoteCalls (trace d) ++ [("sendMessage", JArr [JData message])] ∧
  remoteCalls (trace (exec (sendMessage message (Some "")) d))
  = remoteCalls (trace d) ++ [("sendMessage", JArr [JData message])] ∧
  customMessage message d = sendMessage message None d.
Proof.
  split_and!.
  - intros roomId Hroom. unfold sendMessage. cbn [truthy].
    apply String.eqb_neq in Hroom. rewrite Hroom. cbn [negb].
    rewrite exec_bind, exec_ret. unfold sendMessageByRoomId.
    by rewrite exec_bind, exec_ret, sendMessage_prepared_calls.
  - cbn [sendMessage]. by destruct (asyncCall_frame "sendMessage" (JData message) d).
  - cbn. by destruct (asyncCall_frame "sendMessage" (JData message) d).
  - done.
Qed.

Lemma sendMessage_drops_room_id_witness :
  remoteCalls (trace (exec (sendMessage (mkIMessage None (Some "hello")) (Some "GENERAL"))
                           (connected0 silent)))
  = [("sendMessage",
      JArr [JMessage (new_Message (ObjectContent (mkIMessage None (Some "hello"))))])].
Proof.
  apply (proj1 (sendMessage_drops_room_id (connected0 silent)
                  (mkIMessage None (Some "hello"))) "GENERAL").
  discriminate.
Defined.

(** ** Logging in *)

(** X21.  How [login] chooses its request.  With [ROCKETCHAT_AUTH] set
    to [ldap] it logs in through LDAP with the user name as given.
    Otherwise it logs in by password as the user name, or, when that is
    missing or empty, as the e-mail address, or, when that is missing or
    empty too, as [bot]. *)
Theorem login_request auth answer credentials d :
  (auth = Some "ldap" →
   fst (eval (login auth answer credentials) d)
   = loginWithLDAP (username credentials) (password credentials)) ∧
  (auth ≠ Some "ldap" →
   (∀ u, username credentials = Some u → u ≠ "" →
         fst (eval (login auth answer credentials) d)
         = loginWithPassword u (password credentials)) ∧
   (∀ e, username credentials = None ∨ username credentials = Some "" →
         email credentials = Some e → e ≠ "" →
         fst (eval (login auth answer credentials) d)
         = loginWithPassword e (password credentials)) ∧
   (username credentials = None ∨ username credentials = Some "" →
    email credentials = None ∨ email credentials = Some "" →
    fst (eval (login auth answer credentials) d)
    = loginWithPassword "bot" (password credentials))).
Proof.
  unfold login. rewrite !eval_bind, eval_ret. cbn [fst]. split.
  - intros ->. by rewrite bool_decide_true.
  - intros Hauth. rewrite bool_decide_false by done. split_and!.
    + intros u -> Hu%String.eqb_neq. cbn. rewrite Hu. cbn. by rewrite Hu.
    + intros e Hu -> He%String.eqb_neq.
      destruct Hu as [-> | ->]; cbn; by rewrite He.
    + intros [-> | ->] [-> | ->]; done.
Qed.

Lemma login_request_witness :
  fst (eval (login (Some "ldap") (fun _ => Pending)
                   (mkCredentials (Some "") (Some "bot@example.com") "secret"))
            (connected0 silent))
  = loginWithLDAP (Some "") "secret" ∧
  fst (eval (login None (fun _ => Pending)
                   (mkCredentials (Some "") (Some "bot@example.com") "secret"))
            (connected0 silent))
  = loginWithPassword "bot@example.com" "secret".
Proof.
  split.
  - apply (proj1 (login_request (Some "ldap") (fun _ => Pending)
                    (mkCredentials (Some "") (Some "bot@example.com") "secret")
                    (connected0 silent))).
    reflexivity.
  - apply (proj1 (proj2 (proj2 (login_request None (fun _ => Pending)
                    (mkCredentials (Some "") (Some "bot@example.com") "secret")
                    (connected0 silent)) ltac:(discriminate)))).
    + by right.
    + reflexivity.
    + discriminate.
Defined.

(** X22.  The promise of [login] settles exactly as the transport's
    answer to the request does, a rejection being handed on unchanged;
    a failed login is reported at info level, never through the error
    log, and [login] touches neither the subscriptions nor the cache. *)
Theorem login_settles_as_transport auth answer credentials d :
  snd (eval (login auth answer credentials) d)
  = answer (fst (eval (login auth answer credentials) d)) ∧
  errorsLogged (since d (exec (login auth answer credentials) d)) = [] ∧
  remoteCalls (since d (exec (login auth answer credentials) d)) = [] ∧
  subscriptions (exec (login auth answer credentials) d) = subscriptions d ∧
  buckets (exec (login auth answer credentials) d) = buckets d ∧
  (∀ e,
     answer (fst (eval (login auth answer credentials) d)) = Rejected e →
     ∃ first,
       since d (exec (login auth answer credentials) d)
       = [ELog first; ELog (LogInfo "[login] Error:" (Some (JStr (message e))))]).
Proof.
  unfold login, promise_catch, since.
  set (request := if bool_decide (auth = Some "ldap") then _ else _).
  eff_simpl. destruct (answer request) as [|v|e] eqn:Hanswer; eff_simpl.
  - rewrite drop_app_length. split_and!; try done. intros e. by rewrite Hanswer.
  - rewrite drop_app_length. split_and!; try done. intros e. by rewrite Hanswer.
  - rewrite <- app_assoc, drop_app_length. split_and!; try done.
    intros e'. rewrite Hanswer. intros [= <-]. by eexists.
Qed.

Lemma login_settles_as_transport_witness :
  ∃ first,
    since (connected0 silent)
      (exec (login None (fun _ => Rejected (mkError "User not found"))
                   (mkCredentials (Some "bot") None "secret"))
            (connected0 silent))
    = [ELog first;
       ELog (LogInfo "[login] Error:" (Some (JStr (message (mkError "User not found")))))].
Proof.
  apply (login_settles_as_transport None (fun _ => Rejected (mkError "User not found"))
           (mkCredentials (Some "bot") None "secret") (connected0 silent)).
  reflexivity.
Defined.

(** ** Unsubscribing from everything, continued *)

Lemma odds_facts {A} (l : list A) :
  (length (odds l) = Nat.div2 (length l) ∧ (NoDup l → NoDup (odds l)) ∧
   ∀ x, x ∈ odds l → x ∈ l) ∧
  ∀ a, length (odds (a :: l)) = Nat.div2 (S (length l)) ∧
       (NoDup (a :: l) → NoDup (odds (a :: l))) ∧
       ∀ x, x ∈ odds (a :: l) → x ∈ a :: l.
Proof.
  induction l as [|b l [(Hlen & Hnd & Hin) IH]].
  - split.
    + split_and!; [done..|]. intros x Hx. by apply elem_of_nil in Hx.
    + intros a. split_and!; [done| |].
      * intros _. apply NoDup_nil_2.
      * intros x Hx. by apply elem_of_nil in Hx.
  - split; [apply IH|]. intros a. cbn [odds length Nat.div2]. split_and!.
    + by rewrite Hlen.
    + intros (_ & (Hb & Hl)%NoDup_cons)%NoDup_cons.
      apply NoDup_cons. split; [|by apply Hnd]. intros Hb'. by apply Hb, Hin.
    + intros x [->|Hx]%elem_of_cons.
      * right. left.
      * right. right. by apply Hin.
Qed.

(** X23.  Each [unsubscribeAll] halves the active set: of [n] distinct
    subscriptions [n / 2] (rounded down) remain, still distinct, so the
    set becomes empty only after about log2 [n] further calls. *)
Theorem unsubscribeAll_halves d :
  NoDup (subscriptions d) →
  length (subscriptions (exec unsubscribeAll d))
  = Nat.div2 (length (subscriptions d)) ∧
  NoDup (subscriptions (exec unsubscribeAll d)).
Proof.
  intros Hnd. rewrite exec_unsubscribeAll by done. cbn [subscriptions].
  destruct (odds_facts (subscriptions d)) as [(Hlen & Hnd' & _) _].
  split; [done|by apply Hnd'].
Qed.

Lemma unsubscribeAll_halves_witness :
  length (subscriptions
            (exec unsubscribeAll
               (exec (push sub0;; push sub1;; push (mkSubscription 2 "t" "k"))
                     (connected0 silent))))
  = 1.
Proof.
  refine (proj1 (unsubscribeAll_halves
                   (exec (push sub0;; push sub1;; push (mkSubscription 2 "t" "k"))
                         (connected0 silent)) _)).
  by apply (bool_decide_unpack _).
Defined.
